(** * script.js: the load-time popup initialiser

    A shallow embedding of [src/script.js] over a small model of the browser
    objects the script touches: the document's elements in tree order (each
    with its id, its class token list, its inline style and its click
    listeners), the window's load listeners, the timer queue and a clock.

    Handlers are computations in an exception-and-state monad [js]: a
    lookup that finds nothing returns [None] (JavaScript's [null]) and a
    member access on it throws [TypeError], which ends the handler that was
    running and is reported by the event loop. *)

From stdpp Require Import base strings list gmap.

Open Scope string_scope.
Open Scope list_scope.
Open Scope nat_scope.

(** ** Elements and class token lists *)

Record element := Element {
  el_id : option string;          (* the id attribute, when there is one *)
  classList : list string;        (* the class attribute's tokens, in order *)
  style : gmap string string;     (* inline style: property name to value *)
  clickListeners : nat;           (* click listeners registered on the element *)
}.

(** [DOMTokenList.contains], [add] and [remove]. *)
Definition contains (tok : string) (l : list string) : bool :=
  bool_decide (tok ∈ l).

Definition token_add (tok : string) (l : list string) : list string :=
  if contains tok l then l else l ++ [tok].

Definition token_remove (tok : string) (l : list string) : list string :=
  filter (λ t, t ≠ tok) l.

Definition add_class (tok : string) (e : element) : element :=
  Element (el_id e) (token_add tok (classList e)) (style e) (clickListeners e).

Definition remove_class (tok : string) (e : element) : element :=
  Element (el_id e) (token_remove tok (classList e)) (style e) (clickListeners e).

Definition set_style (prop val : string) (e : element) : element :=
  Element (el_id e) (classList e) (<[prop := val]> (style e)) (clickListeners e).

Definition add_listener (e : element) : element :=
  Element (el_id e) (classList e) (style e) (S (clickListeners e)).

(** ** The document

    The elements of the document in tree order, split at the body element:
    [head_nodes] are the elements before it (the root, the head and what the
    head holds), [body_nodes] the ones after it. *)

Record document := Document {
  head_nodes : list element;
  body : element;
  body_nodes : list element;
}.

Definition tree (d : document) : list element :=
  head_nodes d ++ body d :: body_nodes d.

Definition body_index (d : document) : nat := length (head_nodes d).

(** Apply [f] to the element at position [i] of the tree. *)
Definition modify (f : element → element) (i : nat) (d : document) : document :=
  if decide (i < body_index d) then
    Document (alter f i (head_nodes d)) (body d) (body_nodes d)
  else if decide (i = body_index d) then
    Document (head_nodes d) (f (body d)) (body_nodes d)
  else
    Document (head_nodes d) (body d) (alter f (i - S (body_index d)) (body_nodes d)).

(** Position of the first element of a list that satisfies [P]. *)
Fixpoint find_first (P : element → bool) (l : list element) : option nat :=
  match l with
  | [] => None
  | e :: l' => if P e then Some 0 else S <$> find_first P l'
  end.

Definition has_id (s : string) (e : element) : bool :=
  bool_decide (el_id e = Some s).

Definition has_class (c : string) (e : element) : bool :=
  contains c (classList e).

(** The selectors the script uses: [".c"]. *)
Inductive selector := ClassSel (c : string).

Definition matches (sel : selector) (e : element) : bool :=
  match sel with ClassSel c => has_class c e end.

(** ** Pages *)

Inductive exn := TypeError.

Inductive handler := LoadHandler | ClickHandler | RevealCallback.

(** What the event loop did, oldest first: a handler was entered, or an
    exception left a handler uncaught and was reported. *)
Inductive entry := Enter (h : handler) | Uncaught (e : exn).

Record page := Page {
  doc : document;
  clock : nat;              (* milliseconds *)
  timers : list nat;        (* due times of the pending timeouts, oldest first *)
  loadListeners : nat;      (* load listeners registered on the window *)
  log : list entry;
}.

Definition with_doc (f : document → document) (p : page) : page :=
  Page (f (doc p)) (clock p) (timers p) (loadListeners p) (log p).

Definition record (x : entry) (p : page) : page :=
  Page (doc p) (clock p) (timers p) (loadListeners p) (log p ++ [x]).

(** ** The monad of handler bodies *)

Inductive completion (A : Type) := Normal (a : A) | Abrupt (e : exn).
Arguments Normal {A} a.
Arguments Abrupt {A} e.

Definition js (A : Type) : Type := page → completion A * page.

#[global] Instance js_ret : MRet js := λ A a p, (Normal a, p).

#[global] Instance js_bind : MBind js := λ A B f m p,
  match m p with
  | (Normal a, p') => f a p'
  | (Abrupt e, p') => (Abrupt e, p')
  end.

Definition throw {A} (e : exn) : js A := λ p, (Abrupt e, p).

(** ** The browser operations the script calls *)

Definition getElementById (s : string) : js (option nat) :=
  λ p, (Normal (find_first (has_id s) (tree (doc p))), p).

Definition querySelector (sel : selector) : js (option nat) :=
  λ p, (Normal (find_first (matches sel) (tree (doc p))), p).

(** A method call or property access on an element reference: [null] throws. *)
Definition on_element (r : option nat) (f : element → element) : js unit :=
  match r with
  | None => throw TypeError
  | Some i => λ p, (Normal tt, with_doc (modify f i) p)
  end.

Definition classList_add (r : option nat) (tok : string) : js unit :=
  on_element r (add_class tok).

Definition classList_remove (r : option nat) (tok : string) : js unit :=
  on_element r (remove_class tok).

Definition addEventListener_click (r : option nat) : js unit :=
  on_element r add_listener.

(** [document.body.style.prop = val]. *)
Definition body_style_set (prop val : string) : js unit :=
  λ p, (Normal tt, with_doc (λ d, modify (set_style prop val) (body_index d) d) p).

(** [setTimeout(f, delay)]; the handle it returns is dropped. *)
Definition setTimeout (delay : nat) : js unit :=
  λ p, (Normal tt,
        Page (doc p) (clock p) (timers p ++ [clock p + delay]) (loadListeners p) (log p)).

(** ** The script *)

(** Lines 3-5: the function given to [setTimeout]. *)
Definition reveal_callback : js unit :=
  body_style_set "opacity" "1".

(** Lines 10-14: the click listener of the close control. *)
Definition click_handler : js unit :=
  e ← getElementById "popup"; classList_remove e "show";;
  e ← querySelector (ClassSel "container"); classList_remove e "blur";;
  e ← getElementById "overlay"; classList_add e "hide".

(** Lines 1-15: the load listener. *)
Definition load_handler : js unit :=
  body_style_set "display" "block";;
  setTimeout 50;;
  e ← getElementById "popup"; classList_add e "show";;
  e ← querySelector (ClassSel "container"); classList_add e "blur";;
  e ← getElementById "overlay"; classList_remove e "hide";;
  e ← getElementById "close-popup"; addEventListener_click e.

(** Line 1, run when the script is evaluated: [window.addEventListener]. *)
Definition script (p : page) : page :=
  Page (doc p) (clock p) (timers p) (S (loadListeners p)) (log p).

(** ** The event loop *)

(** Run one callback; an exception that leaves it is reported and dropped. *)
Definition invoke (h : handler) (c : js unit) (p : page) : page :=
  match c (record (Enter h) p) with
  | (Normal _, p') => p'
  | (Abrupt e, p') => record (Uncaught e) p'
  end.

(** Take the oldest timeout that is due out of the queue. *)
Fixpoint pop_due (now : nat) (ts : list nat) : option (list nat) :=
  match ts with
  | [] => None
  | t :: ts' =>
      if decide (t ≤ now) then Some ts'
      else (λ r, t :: r) <$> pop_due now ts'
  end.

Inductive event :=
  | Load                    (* the window's load event *)
  | Click (target : nat)    (* a click dispatched on the element at [target] *)
  | Advance (ms : nat)      (* time passes *)
  | Timeout.                (* the event loop runs a due timeout *)

Definition step (ev : event) (p : page) : page :=
  match ev with
  | Load => Nat.iter (loadListeners p) (invoke LoadHandler load_handler) p
  | Click i =>
      match tree (doc p) !! i with
      | Some e => Nat.iter (clickListeners e) (invoke ClickHandler click_handler) p
      | None => p
      end
  | Advance ms =>
      Page (doc p) (clock p + ms) (timers p) (loadListeners p) (log p)
  | Timeout =>
      match pop_due (clock p) (timers p) with
      | Some ts =>
          invoke RevealCallback reveal_callback
            (Page (doc p) (clock p) ts (loadListeners p) (log p))
      | None => p
      end
  end.

Definition run (evs : list event) (p : page) : page :=
  foldl (λ q ev, step ev q) p evs.

(** A page as the browser hands it to the script: nothing registered yet. *)
Definition fresh (p : page) : Prop :=
  timers p = [] ∧ loadListeners p = 0 ∧ log p = [] ∧
  Forall (λ e, clickListeners e = 0) (tree (doc p)).

(** ** Observations used in the statements *)

(** Does the element at position [i] carry the class token [tok]? *)
Definition has (d : document) (i : nat) (tok : string) : bool :=
  match tree d !! i with
  | Some e => contains tok (classList e)
  | None => false
  end.

Definition popup_of (d : document) : option nat :=
  find_first (has_id "popup") (tree d).
Definition container_of (d : document) : option nat :=
  find_first (matches (ClassSel "container")) (tree d).
Definition overlay_of (d : document) : option nat :=
  find_first (has_id "overlay") (tree d).
Definition close_of (d : document) : option nat :=
  find_first (has_id "close-popup") (tree d).

(** The four elements the script needs are in the document, at positions
    [a], [b], [c] and [k]. *)
Definition present (d : document) (a b c k : nat) : Prop :=
  popup_of d = Some a ∧ container_of d = Some b ∧
  overlay_of d = Some c ∧ close_of d = Some k.

(** ** Class token lists *)

Section tokens.
Implicit Types (t u : string) (l : list string).

Lemma contains_add_eq t l : contains t (token_add t l) = true.
Proof.
  unfold token_add. destruct (contains t l) eqn:E; [done|].
  apply bool_decide_eq_true. set_solver.
Qed.

Lemma contains_add_ne t u l : t ≠ u → contains u (token_add t l) = contains u l.
Proof.
  intros Hne. unfold token_add. destruct (contains t l); [done|].
  unfold contains. apply bool_decide_ext. set_solver.
Qed.

Lemma contains_remove_eq t l : contains t (token_remove t l) = false.
Proof.
  apply bool_decide_eq_false. unfold token_remove.
  rewrite list_elem_of_filter. naive_solver.
Qed.

Lemma contains_remove_ne t u l :
  t ≠ u → contains u (token_remove t l) = contains u l.
Proof.
  intros Hne. apply bool_decide_ext. unfold token_remove.
  rewrite list_elem_of_filter. naive_solver.
Qed.

Lemma token_add_noop t l : contains t l = true → token_add t l = l.
Proof. unfold token_add. by intros ->. Qed.

Lemma token_remove_noop t l : contains t l = false → token_remove t l = l.
Proof.
  intros H%bool_decide_eq_false. unfold token_remove.
  induction l as [|x l IH]; [done|].
  rewrite filter_cons. destruct (decide (x ≠ t)) as [|Hx].
  - f_equal. apply IH. set_solver.
  - exfalso. apply H. apply dec_stable in Hx. set_solver.
Qed.
End tokens.

(** ** Documents: updates and lookups *)

Section documents.
Implicit Types (d : document) (f : element → element) (i j : nat).

Lemma tree_modify f i d : tree (modify f i d) = alter f i (tree d).
Proof.
  unfold modify, tree, body_index.
  destruct (decide (i < length (head_nodes d))) as [Hlt|Hge]; simpl.
  - by rewrite alter_app_l.
  - rewrite alter_app_r_alt by lia.
    destruct (decide (i = length (head_nodes d))) as [->|Hne]; simpl.
    + by rewrite Nat.sub_diag.
    + replace (i - length (head_nodes d)) with (S (i - S (length (head_nodes d))))
        by lia.
      done.
Qed.

Lemma body_index_modify f i d : body_index (modify f i d) = body_index d.
Proof.
  unfold modify, body_index.
  repeat case_decide; simpl; by rewrite ?length_alter.
Qed.

Lemma body_lookup d : tree d !! body_index d = Some (body d).
Proof. unfold tree, body_index. by rewrite list_lookup_middle. Qed.

Lemma body_modify f i d :
  body (modify f i d) = if decide (i = body_index d) then f (body d) else body d.
Proof.
  unfold modify. repeat case_decide; simpl; try done; lia.
Qed.

Lemma modify_noop f i d :
  (∀ e, tree d !! i = Some e → f e = e) → modify f i d = d.
Proof.
  intros Hf. unfold modify. destruct d as [hs b bs].
  unfold tree, body_index in *; simpl in *.
  destruct (decide (i < length hs)) as [Hlt|Hge].
  - f_equal. apply list_eq; intros j. rewrite list_lookup_alter.
    case_decide as Hij; [subst j|done].
    destruct (hs !! i) as [e|] eqn:E; [|done]. simpl. f_equal. apply Hf.
    by rewrite lookup_app_l_Some with (x := e).
  - destruct (decide (i = length hs)) as [->|Hne].
    + f_equal. apply Hf. by rewrite list_lookup_middle.
    + f_equal. apply list_eq; intros j. rewrite list_lookup_alter.
      case_decide as Hij; [subst j|done].
      destruct (bs !! (i - S (length hs))) as [e|] eqn:E; [|done].
      simpl. f_equal. apply Hf. rewrite lookup_app_r by lia.
      replace (i - length hs) with (S (i - S (length hs))) by lia. done.
Qed.

(** A field [g] of the elements that [f] leaves alone is the same all
    over the tree after [modify f]. *)
Lemma fmap_tree_modify {X} (g : element → X) f i d :
  (∀ e, g (f e) = g e) → g <$> tree (modify f i d) = g <$> tree d.
Proof.
  intros Hg. rewrite tree_modify. apply list_eq; intros j.
  rewrite !list_lookup_fmap, list_lookup_alter.
  case_decide; [subst j|done]. destruct (tree d !! i); simpl; [|done].
  by rewrite Hg.
Qed.

Lemma find_first_ext (P : element → bool) (l l' : list element) :
  P <$> l = P <$> l' → find_first P l = find_first P l'.
Proof.
  revert l'. induction l as [|e l IH]; intros [|e' l'] H; simplify_eq/=; [done|].
  rewrite H. by rewrite (IH l').
Qed.

Lemma find_first_Some (P : element → bool) (l : list element) i :
  find_first P l = Some i → ∃ e, l !! i = Some e ∧ P e = true.
Proof.
  revert i. induction l as [|e l IH]; intros i H; simplify_eq/=.
  destruct (P e) eqn:E; simplify_eq/=; [eauto|].
  destruct (find_first P l) as [j|] eqn:F; simplify_eq/=.
  destruct (IH j eq_refl) as (e' & ? & ?). eauto.
Qed.

Lemma has_modify f i j tok d :
  has (modify f j d) i tok =
    match tree d !! i with
    | Some e => contains tok (classList (if decide (j = i) then f e else e))
    | None => false
    end.
Proof.
  unfold has. rewrite tree_modify, list_lookup_alter.
  case_decide; [subst j|done]. by destruct (tree d !! i).
Qed.
End documents.

(** ** The edits the script makes, one by one *)

(** An edit is harmless when it changes neither the id of an element nor
    whether it matches [.container]: no lookup of the script can tell. *)
Definition harmless (f : element → element) : Prop :=
  ∀ e, el_id (f e) = el_id e ∧
       contains "container" (classList (f e)) = contains "container" (classList e).

Section edits.
Implicit Types (d : document) (f : element → element) (i j : nat) (tok : string).

Lemma harmless_add_class tok : tok ≠ "container" → harmless (add_class tok).
Proof. intros ? e. split; [done|]. by apply contains_add_ne. Qed.

Lemma harmless_remove_class tok : tok ≠ "container" → harmless (remove_class tok).
Proof. intros ? e. split; [done|]. by apply contains_remove_ne. Qed.

Lemma harmless_set_style prop val : harmless (set_style prop val).
Proof. by intros e. Qed.

Lemma harmless_add_listener : harmless add_listener.
Proof. by intros e. Qed.

Lemma lookups_modify f i d :
  harmless f →
  popup_of (modify f i d) = popup_of d ∧
  container_of (modify f i d) = container_of d ∧
  overlay_of (modify f i d) = overlay_of d ∧
  close_of (modify f i d) = close_of d.
Proof.
  intros Hf. unfold popup_of, container_of, overlay_of, close_of.
  split_and!; apply find_first_ext, fmap_tree_modify; intros e;
    destruct (Hf e) as [Hid Hc]; unfold has_id, matches, has_class;
    by rewrite ?Hid, ?Hc.
Qed.

Lemma present_modify f i d a b c k :
  harmless f → present (modify f i d) a b c k ↔ present d a b c k.
Proof.
  intros Hf. unfold present.
  destruct (lookups_modify f i d Hf) as (-> & -> & -> & ->). done.
Qed.

Lemma has_modify_keep f i j tok d :
  (∀ e, contains tok (classList (f e)) = contains tok (classList e)) →
  has (modify f j d) i tok = has d i tok.
Proof.
  intros Hf. rewrite has_modify. unfold has.
  destruct (tree d !! i); [|done]. case_decide; by rewrite ?Hf.
Qed.

Lemma has_add_same i tok d :
  is_Some (tree d !! i) → has (modify (add_class tok) i d) i tok = true.
Proof.
  intros [e He]. rewrite has_modify, He, decide_True by done.
  apply contains_add_eq.
Qed.

Lemma has_add_ne i j tok u d :
  tok ≠ u → has (modify (add_class tok) j d) i u = has d i u.
Proof. intros. apply has_modify_keep. intros e. by apply contains_add_ne. Qed.

Lemma has_remove_same i tok d : has (modify (remove_class tok) i d) i tok = false.
Proof.
  rewrite has_modify. destruct (tree d !! i); [|done].
  rewrite decide_True by done. apply contains_remove_eq.
Qed.

Lemma has_remove_ne i j tok u d :
  tok ≠ u → has (modify (remove_class tok) j d) i u = has d i u.
Proof. intros. apply has_modify_keep. intros e. by apply contains_remove_ne. Qed.

Lemma has_set_style i j prop val u d :
  has (modify (set_style prop val) j d) i u = has d i u.
Proof. by apply has_modify_keep. Qed.

Lemma has_add_listener i j u d : has (modify add_listener j d) i u = has d i u.
Proof. by apply has_modify_keep. Qed.

Lemma modify_add_noop i tok d :
  has d i tok = true → modify (add_class tok) i d = d.
Proof.
  unfold has. intros H. apply modify_noop. intros e He. rewrite He in H.
  destruct e. unfold add_class; simpl in *. f_equal. by apply token_add_noop.
Qed.

Lemma modify_remove_noop i tok d :
  has d i tok = false → modify (remove_class tok) i d = d.
Proof.
  unfold has. intros H. apply modify_noop. intros e He. rewrite He in H.
  destruct e. unfold remove_class; simpl in *. f_equal. by apply token_remove_noop.
Qed.

Lemma present_is_Some d a b c k :
  present d a b c k →
  is_Some (tree d !! a) ∧ is_Some (tree d !! b) ∧
  is_Some (tree d !! c) ∧ is_Some (tree d !! k).
Proof.
  intros (Ha & Hb & Hc & Hk).
  split_and!; eapply find_first_Some in Ha, Hb, Hc, Hk; naive_solver.
Qed.
End edits.

(** ** What the handlers compute *)

Section lookups.
Implicit Types (d : document) (f : element → element) (i : nat).

Lemma popup_of_modify f i d : harmless f → popup_of (modify f i d) = popup_of d.
Proof. intros Hf. apply (lookups_modify f i d Hf). Qed.

Lemma container_of_modify f i d :
  harmless f → container_of (modify f i d) = container_of d.
Proof. intros Hf. apply (lookups_modify f i d Hf). Qed.

Lemma overlay_of_modify f i d : harmless f → overlay_of (modify f i d) = overlay_of d.
Proof. intros Hf. apply (lookups_modify f i d Hf). Qed.

Lemma close_of_modify f i d : harmless f → close_of (modify f i d) = close_of d.
Proof. intros Hf. apply (lookups_modify f i d Hf). Qed.
End lookups.

Create HintDb harmless.
#[global] Hint Resolve harmless_set_style harmless_add_listener : harmless.
#[global] Hint Extern 1 (harmless (add_class _)) =>
  apply harmless_add_class; discriminate : harmless.
#[global] Hint Extern 1 (harmless (remove_class _)) =>
  apply harmless_remove_class; discriminate : harmless.

(** Name the lookups of the goal and move them back to the document the
    handler started from. *)
Ltac name_lookups :=
  repeat match goal with
  | |- context [find_first (has_id "popup") (tree ?d)] =>
      change (find_first (has_id "popup") (tree d)) with (popup_of d)
  | |- context [find_first (has_id "overlay") (tree ?d)] =>
      change (find_first (has_id "overlay") (tree d)) with (overlay_of d)
  | |- context [find_first (has_id "close-popup") (tree ?d)] =>
      change (find_first (has_id "close-popup") (tree d)) with (close_of d)
  | |- context [find_first (matches (ClassSel "container")) (tree ?d)] =>
      change (find_first (matches (ClassSel "container")) (tree d))
        with (container_of d)
  end;
  rewrite ?popup_of_modify, ?container_of_modify, ?overlay_of_modify,
    ?close_of_modify by auto with harmless.

Ltac unfold_js :=
  unfold mbind, js_bind, body_style_set, setTimeout, getElementById,
    querySelector, classList_add, classList_remove, addEventListener_click,
    with_doc; simpl.

(** The document once the body is displayed (line 2). *)
Definition displayed (d : document) : document :=
  modify (set_style "display" "block") (body_index d) d.

(** The document after the load listener ran to its end. *)
Definition opened (a b c k : nat) (d : document) : document :=
  modify add_listener k
    (modify (remove_class "hide") c
      (modify (add_class "blur") b
        (modify (add_class "show") a (displayed d)))).

(** The document after the click listener ran to its end. *)
Definition closed (a b c : nat) (d : document) : document :=
  modify (add_class "hide") c
    (modify (remove_class "blur") b
      (modify (remove_class "show") a d)).

Section handlers.
Implicit Types (p : page) (d : document).

(** The load listener, statement by statement: every lookup sees the
    elements where they were when the listener started. *)
Lemma load_handler_eq p :
  load_handler p =
    let q d := Page d (clock p) (timers p ++ [clock p + 50])
                    (loadListeners p) (log p) in
    let d0 := displayed (doc p) in
    match popup_of (doc p) with
    | None => (Abrupt TypeError, q d0)
    | Some a =>
        let d1 := modify (add_class "show") a d0 in
        match container_of (doc p) with
        | None => (Abrupt TypeError, q d1)
        | Some b =>
            let d2 := modify (add_class "blur") b d1 in
            match overlay_of (doc p) with
            | None => (Abrupt TypeError, q d2)
            | Some c =>
                let d3 := modify (remove_class "hide") c d2 in
                match close_of (doc p) with
                | None => (Abrupt TypeError, q d3)
                | Some k => (Normal tt, q (modify add_listener k d3))
                end
            end
        end
    end.
Proof.
  unfold load_handler, displayed. unfold_js. name_lookups.
  destruct (popup_of (doc p)) as [a|]; simpl; [|done]. name_lookups.
  destruct (container_of (doc p)) as [b|]; simpl; [|done]. name_lookups.
  destruct (overlay_of (doc p)) as [c|]; simpl; [|done]. name_lookups.
  by destruct (close_of (doc p)) as [k|].
Qed.

Lemma click_handler_eq p :
  click_handler p =
    let q d := Page d (clock p) (timers p) (loadListeners p) (log p) in
    match popup_of (doc p) with
    | None => (Abrupt TypeError, p)
    | Some a =>
        let d1 := modify (remove_class "show") a (doc p) in
        match container_of (doc p) with
        | None => (Abrupt TypeError, q d1)
        | Some b =>
            let d2 := modify (remove_class "blur") b d1 in
            match overlay_of (doc p) with
            | None => (Abrupt TypeError, q d2)
            | Some c => (Normal tt, q (modify (add_class "hide") c d2))
            end
        end
    end.
Proof.
  unfold click_handler. unfold_js. name_lookups.
  destruct (popup_of (doc p)) as [a|]; simpl; [|done]. name_lookups.
  destruct (container_of (doc p)) as [b|]; simpl; [|done]. name_lookups.
  by destruct (overlay_of (doc p)) as [c|].
Qed.

Lemma load_handler_present p a b c k :
  present (doc p) a b c k →
  load_handler p =
    (Normal tt,
     Page (opened a b c k (doc p)) (clock p) (timers p ++ [clock p + 50])
          (loadListeners p) (log p)).
Proof. intros (Ha & Hb & Hc & Hk). by rewrite load_handler_eq, Ha, Hb, Hc, Hk. Qed.

Lemma click_handler_present p a b c k :
  present (doc p) a b c k →
  click_handler p =
    (Normal tt,
     Page (closed a b c (doc p)) (clock p) (timers p) (loadListeners p) (log p)).
Proof. intros (Ha & Hb & Hc & Hk). by rewrite click_handler_eq, Ha, Hb, Hc. Qed.
End handlers.

(** ** The open and the closed state *)

Definition open_state (d : document) (a b c : nat) : Prop :=
  has d a "show" = true ∧ has d b "blur" = true ∧ has d c "hide" = false.

Definition closed_state (d : document) (a b c : nat) : Prop :=
  has d a "show" = false ∧ has d b "blur" = false ∧ has d c "hide" = true.

Section states.
Implicit Types (d : document) (a b c k : nat).

Lemma tree_lookup_modify_is_Some (f : element → element) i j d :
  is_Some (tree (modify f j d) !! i) ↔ is_Some (tree d !! i).
Proof. by rewrite !lookup_lt_is_Some, tree_modify, length_alter. Qed.

Lemma opened_open_state a b c k d :
  is_Some (tree d !! a) → is_Some (tree d !! b) →
  open_state (opened a b c k d) a b c.
Proof.
  intros Ha Hb. unfold open_state, opened, displayed. split_and!.
  - rewrite has_add_listener, has_remove_ne, has_add_ne by done.
    apply has_add_same. by rewrite tree_lookup_modify_is_Some.
  - rewrite has_add_listener, has_remove_ne by done.
    apply has_add_same. by rewrite !tree_lookup_modify_is_Some.
  - rewrite has_add_listener. apply has_remove_same.
Qed.

Lemma closed_closed_state a b c d :
  is_Some (tree d !! c) → closed_state (closed a b c d) a b c.
Proof.
  intros Hc. unfold closed_state, closed. split_and!.
  - rewrite has_add_ne, has_remove_ne by done. apply has_remove_same.
  - rewrite has_add_ne by done. apply has_remove_same.
  - apply has_add_same. by rewrite !tree_lookup_modify_is_Some.
Qed.

(** Closing a document that is closed changes nothing. *)
Lemma closed_noop a b c d : closed_state d a b c → closed a b c d = d.
Proof.
  intros (Ha & Hb & Hc). unfold closed.
  by rewrite (modify_remove_noop a), (modify_remove_noop b), (modify_add_noop c).
Qed.

Lemma closed_idem a b c d :
  is_Some (tree d !! c) → closed a b c (closed a b c d) = closed a b c d.
Proof. intros Hc. by apply closed_noop, closed_closed_state. Qed.

Lemma present_opened a b c k d a' b' c' k' :
  present (opened a b c k d) a' b' c' k' ↔ present d a' b' c' k'.
Proof.
  unfold opened, displayed. by rewrite !present_modify by auto with harmless.
Qed.

Lemma present_closed a b c d a' b' c' k' :
  present (closed a b c d) a' b' c' k' ↔ present d a' b' c' k'.
Proof. unfold closed. by rewrite !present_modify by auto with harmless. Qed.
End states.

(** ** The body *)

Section body.
Implicit Types (d : document) (f : element → element) (i : nat).

Lemma body_field_modify {X} (g : element → X) f i d :
  (∀ e, g (f e) = g e) → g (body (modify f i d)) = g (body d).
Proof. intros Hg. rewrite body_modify. by case_decide. Qed.

Lemma body_displayed d : body (displayed d) = set_style "display" "block" (body d).
Proof. unfold displayed. by rewrite body_modify, decide_True. Qed.

Lemma style_body_opened a b c k d :
  style (body (opened a b c k d)) = <["display" := "block"]> (style (body d)).
Proof.
  unfold opened. rewrite !(body_field_modify style) by done.
  by rewrite body_displayed.
Qed.
End body.

(** ** A page to run the script on

    [<html><head/><body><div class="container"/><div id="overlay"
    class="overlay hide"/><div id="popup" class="popup"/><button
    id="close-popup"/></body></html>], before the script is evaluated. *)

Definition plain : element := Element None [] ∅ 0.

Definition sample_doc : document :=
  Document [plain; plain] plain
    [ Element None ["container"] ∅ 0;
      Element (Some "overlay") ["overlay"; "hide"] ∅ 0;
      Element (Some "popup") ["popup"] ∅ 0;
      Element (Some "close-popup") [] ∅ 0 ].

Definition sample_page : page := Page sample_doc 0 [] 0 [].

Example sample_present : present sample_doc 5 3 4 6.
Proof. by vm_compute. Qed.

Example sample_run :
  let p := run [Load; Advance 60; Timeout; Click 6] (script sample_page) in
  classList <$> tree (doc p) =
    [[]; []; []; ["container"]; ["overlay"; "hide"]; ["popup"]; []] ∧
  style (body (doc p)) !! "display" = Some "block" ∧
  style (body (doc p)) !! "opacity" = Some "1" ∧
  timers p = [] ∧
  log p = [Enter LoadHandler; Enter RevealCallback; Enter ClickHandler].
Proof. by vm_compute. Qed.

Example sample_open :
  let p := run [Load] (script sample_page) in
  classList <$> tree (doc p) =
    [[]; []; []; ["container"; "blur"]; ["overlay"]; ["popup"; "show"]; []] ∧
  clickListeners <$> tree (doc p) = [0; 0; 0; 0; 0; 0; 1] ∧
  timers p = [50].
Proof. by vm_compute. Qed.

(** ** Frames: what a handler leaves alone *)

(** The edit [f] does not change the field [g] of an element. *)
Definition keeps {X} (g : element → X) (f : element → element) : Prop :=
  ∀ e, g (f e) = g e.

Section frames.
Context {X : Type} (g : element → X).
Implicit Types (p : page) (d : document).

Lemma load_handler_field p :
  keeps g (set_style "display" "block") →
  keeps g (add_class "show") → keeps g (add_class "blur") →
  keeps g (remove_class "hide") → keeps g add_listener →
  g <$> tree (doc (load_handler p).2) = g <$> tree (doc p).
Proof.
  intros. rewrite load_handler_eq. unfold displayed.
  repeat case_match; simpl; by rewrite !fmap_tree_modify.
Qed.

Lemma click_handler_field p :
  keeps g (remove_class "show") → keeps g (remove_class "blur") →
  keeps g (add_class "hide") →
  g <$> tree (doc (click_handler p).2) = g <$> tree (doc p).
Proof.
  intros. rewrite click_handler_eq.
  repeat case_match; simpl; by rewrite ?fmap_tree_modify.
Qed.

Lemma reveal_callback_field p :
  keeps g (set_style "opacity" "1") →
  g <$> tree (doc (reveal_callback p).2) = g <$> tree (doc p).
Proof. intros. simpl. by rewrite fmap_tree_modify. Qed.

Lemma body_field d : (g <$> tree d) !! body_index d = Some (g (body d)).
Proof. by rewrite list_lookup_fmap, body_lookup. Qed.
End frames.

Section rest.
Implicit Types (p : page) (x : entry).

Lemma load_handler_body_index p :
  body_index (doc (load_handler p).2) = body_index (doc p).
Proof.
  rewrite load_handler_eq. unfold displayed.
  repeat case_match; simpl; by rewrite !body_index_modify.
Qed.

Lemma click_handler_body_index p :
  body_index (doc (click_handler p).2) = body_index (doc p).
Proof.
  rewrite click_handler_eq.
  repeat case_match; simpl; by rewrite ?body_index_modify.
Qed.

Lemma reveal_callback_body_index p :
  body_index (doc (reveal_callback p).2) = body_index (doc p).
Proof. simpl. by rewrite body_index_modify. Qed.

(** Outside the document, the load listener only adds its timeout. *)
Lemma load_handler_rest p :
  let p' := (load_handler p).2 in
  clock p' = clock p ∧ timers p' = timers p ++ [clock p + 50] ∧
  loadListeners p' = loadListeners p ∧ log p' = log p.
Proof. rewrite load_handler_eq. by repeat case_match. Qed.

Lemma click_handler_rest p :
  let p' := (click_handler p).2 in
  clock p' = clock p ∧ timers p' = timers p ∧
  loadListeners p' = loadListeners p ∧ log p' = log p.
Proof. rewrite click_handler_eq. by repeat case_match. Qed.

(** The handlers do not read the log. *)
Lemma load_handler_record x p :
  load_handler (record x p) =
    ((load_handler p).1, record x (load_handler p).2).
Proof. rewrite !load_handler_eq. simpl. by repeat case_match. Qed.

Lemma click_handler_record x p :
  click_handler (record x p) =
    ((click_handler p).1, record x (click_handler p).2).
Proof. rewrite !click_handler_eq. simpl. by repeat case_match. Qed.
End rest.

(** ** The event loop, one callback at a time *)

Section invoke.
Implicit Types (p : page) (h : handler) (c : js unit).

Lemma invoke_doc h c p : doc (invoke h c p) = doc (c (record (Enter h) p)).2.
Proof. unfold invoke. by destruct (c _) as [[|] ?]. Qed.

(** What the exception of an abrupt completion adds to the log. *)
Definition report (r : completion unit) : list entry :=
  match r with Normal _ => [] | Abrupt e => [Uncaught e] end.

Lemma invoke_load p :
  invoke LoadHandler load_handler p =
    Page (doc (load_handler p).2) (clock p) (timers p ++ [clock p + 50])
         (loadListeners p)
         (log p ++ Enter LoadHandler :: report (load_handler p).1).
Proof.
  unfold invoke. rewrite load_handler_record.
  destruct (load_handler_rest p) as (Hc & Ht & Hl & Hg).
  destruct (load_handler p) as [[[]|e] [d ck ts n lg]]; simpl in *; subst;
    unfold record; simpl; by rewrite <- ?(assoc_L (++)).
Qed.

Lemma invoke_click p :
  invoke ClickHandler click_handler p =
    Page (doc (click_handler p).2) (clock p) (timers p) (loadListeners p)
         (log p ++ Enter ClickHandler :: report (click_handler p).1).
Proof.
  unfold invoke. rewrite click_handler_record.
  destruct (click_handler_rest p) as (Hc & Ht & Hl & Hg).
  destruct (click_handler p) as [[[]|e] [d ck ts n lg]]; simpl in *; subst;
    unfold record; simpl; by rewrite <- ?(assoc_L (++)).
Qed.

Lemma invoke_reveal p :
  invoke RevealCallback reveal_callback p =
    Page (modify (set_style "opacity" "1") (body_index (doc p)) (doc p))
         (clock p) (timers p) (loadListeners p) (log p ++ [Enter RevealCallback]).
Proof. done. Qed.
End invoke.

(** ** The event loop, one event at a time *)

(** The edits an event can make to elements. *)
Definition edits_of (ev : event) : list (element → element) :=
  match ev with
  | Load =>
      [set_style "display" "block"; add_class "show"; add_class "blur";
       remove_class "hide"; add_listener]
  | Click _ => [remove_class "show"; remove_class "blur"; add_class "hide"]
  | Advance _ => []
  | Timeout => [set_style "opacity" "1"]
  end.

Section steps.
Implicit Types (p : page) (ev : event) (n : nat).

Lemma iter_load_field {X} (g : element → X) n p :
  Forall (keeps g) (edits_of Load) →
  g <$> tree (doc (Nat.iter n (invoke LoadHandler load_handler) p)) =
    g <$> tree (doc p).
Proof.
  intros (? & (? & (? & (? & (? & _)%Forall_cons)%Forall_cons)%Forall_cons)
    %Forall_cons)%Forall_cons.
  induction n as [|n IH]; simpl; [done|].
  rewrite invoke_load; simpl. by rewrite load_handler_field.
Qed.

Lemma iter_click_field {X} (g : element → X) n p :
  Forall (keeps g) (edits_of (Click 0)) →
  g <$> tree (doc (Nat.iter n (invoke ClickHandler click_handler) p)) =
    g <$> tree (doc p).
Proof.
  intros (? & (? & (? & _)%Forall_cons)%Forall_cons)%Forall_cons.
  induction n as [|n IH]; simpl; [done|].
  rewrite invoke_click; simpl. by rewrite click_handler_field.
Qed.

Lemma step_field {X} (g : element → X) ev p :
  Forall (keeps g) (edits_of ev) →
  g <$> tree (doc (step ev p)) = g <$> tree (doc p).
Proof.
  destruct ev as [|i|ms|]; simpl; intros Hk.
  - by apply iter_load_field.
  - destruct (tree (doc p) !! i) as [e|]; [|done]. by apply iter_click_field.
  - done.
  - apply Forall_cons in Hk as (? & _).
    destruct (pop_due _ _); [|done]. rewrite invoke_reveal; simpl.
    by rewrite fmap_tree_modify.
Qed.

Lemma step_body_index ev p : body_index (doc (step ev p)) = body_index (doc p).
Proof.
  destruct ev as [|i|ms|]; simpl.
  - induction (loadListeners p) as [|n IH]; simpl; [done|].
    rewrite invoke_load; simpl. by rewrite load_handler_body_index.
  - destruct (tree (doc p) !! i) as [e|]; [|done].
    induction (clickListeners e) as [|n IH]; simpl; [done|].
    rewrite invoke_click; simpl. by rewrite click_handler_body_index.
  - done.
  - destruct (pop_due _ _); [|done]. rewrite invoke_reveal; simpl.
    by rewrite body_index_modify.
Qed.

Lemma edits_harmless ev : Forall harmless (edits_of ev).
Proof.
  destruct ev; simpl;
    repeat (apply Forall_cons_2; [auto with harmless|]); apply Forall_nil_2.
Qed.

Lemma harmless_keeps_id s f : harmless f → keeps (has_id s) f.
Proof. intros Hf e. unfold has_id. by destruct (Hf e) as [-> _]. Qed.

Lemma harmless_keeps_container f :
  harmless f → keeps (matches (ClassSel "container")) f.
Proof. intros Hf e. simpl. unfold has_class. by destruct (Hf e) as [_ ->]. Qed.

(** No event moves the elements the script looks up. *)
Lemma step_lookups ev p :
  popup_of (doc (step ev p)) = popup_of (doc p) ∧
  container_of (doc (step ev p)) = container_of (doc p) ∧
  overlay_of (doc (step ev p)) = overlay_of (doc p) ∧
  close_of (doc (step ev p)) = close_of (doc p).
Proof.
  unfold popup_of, container_of, overlay_of, close_of.
  split_and!; apply find_first_ext, step_field;
    (eapply Forall_impl; [apply edits_harmless|]);
    auto using harmless_keeps_id, harmless_keeps_container.
Qed.

Lemma iter_load_present n p a b c k :
  present (doc (Nat.iter n (invoke LoadHandler load_handler) p)) a b c k ↔
  present (doc p) a b c k.
Proof.
  unfold present, popup_of, container_of, overlay_of, close_of.
  rewrite !(find_first_ext _ (tree (doc (Nat.iter n _ p))) (tree (doc p))); [done|..];
    apply iter_load_field;
    (eapply Forall_impl; [apply (edits_harmless Load)|]);
    auto using harmless_keeps_id, harmless_keeps_container.
Qed.

Lemma step_present ev p a b c k :
  present (doc (step ev p)) a b c k ↔ present (doc p) a b c k.
Proof.
  unfold present. by destruct (step_lookups ev p) as (-> & -> & -> & ->).
Qed.

Lemma run_snoc evs ev p : run (evs ++ [ev]) p = step ev (run evs p).
Proof. unfold run. by rewrite foldl_app. Qed.

Lemma run_cons ev evs p : run (ev :: evs) p = run evs (step ev p).
Proof. done. Qed.

Lemma run_present evs p a b c k :
  present (doc (run evs p)) a b c k ↔ present (doc p) a b c k.
Proof.
  revert p. induction evs as [|ev evs IH]; intros p; [done|].
  by rewrite run_cons, IH, step_present.
Qed.

Lemma iter_load_rest n p :
  let q := Nat.iter n (invoke LoadHandler load_handler) p in
  clock q = clock p ∧ timers q = timers p ++ replicate n (clock p + 50) ∧
  loadListeners q = loadListeners p ∧
  ∃ extra, log q = log p ++ extra ∧
    Forall (λ x, x ≠ Enter ClickHandler ∧ x ≠ Enter RevealCallback) extra ∧
    (0 < n → Enter LoadHandler ∈ extra).
Proof.
  induction n as [|n (Hc & Ht & Hl & extra & Hg & Hx & Hn)]; simpl.
  - rewrite app_nil_r. split_and!; try done. exists []. rewrite app_nil_r.
    split_and!; [done|constructor|lia].
  - rewrite invoke_load; simpl. rewrite Hc, Ht, Hl, Hg.
    split_and!; try done.
    + rewrite <- (assoc_L (++)). f_equal.
      change (clock p + 50 :: replicate n (clock p + 50))
        with (replicate (S n) (clock p + 50)).
      by rewrite replicate_S_end.
    + eexists. split; [by rewrite <- (assoc_L (++))|]. split.
      * apply Forall_app. split; [done|].
        constructor; [done|]. destruct (load_handler _).1; simpl; [constructor|].
        by repeat constructor.
      * intros _. set_solver.
Qed.

Lemma iter_click_rest n p :
  let q := Nat.iter n (invoke ClickHandler click_handler) p in
  clock q = clock p ∧ timers q = timers p ∧ loadListeners q = loadListeners p ∧
  ∃ extra, log q = log p ++ extra ∧
    Forall (λ x, x ≠ Enter LoadHandler ∧ x ≠ Enter RevealCallback) extra ∧
    (n = 0 → extra = []).
Proof.
  induction n as [|n (Hc & Ht & Hl & extra & Hg & Hx & Hn)]; simpl.
  - split_and!; try done. exists []. by rewrite app_nil_r.
  - rewrite invoke_click; simpl. rewrite Hc, Ht, Hl, Hg.
    split_and!; try done.
    eexists. split; [by rewrite <- (assoc_L (++))|]. split; [|done].
    apply Forall_app. split; [done|].
    constructor; [done|]. destruct (click_handler _).1; simpl; [constructor|].
    by repeat constructor.
Qed.

Lemma step_loadListeners ev p : loadListeners (step ev p) = loadListeners p.
Proof.
  destruct ev as [|i|ms|]; simpl.
  - apply iter_load_rest.
  - destruct (tree (doc p) !! i); [|done]. apply iter_click_rest.
  - done.
  - by destruct (pop_due _ _).
Qed.

Lemma run_loadListeners evs p : loadListeners (run evs p) = loadListeners p.
Proof.
  revert p. induction evs as [|ev evs IH]; intros p; [done|].
  by rewrite run_cons, IH, step_loadListeners.
Qed.
End steps.

(** ** Click listeners *)

(** Number of click listeners on the element at position [i]. *)
Definition listeners (d : document) (i : nat) : nat :=
  match tree d !! i with
  | Some e => clickListeners e
  | None => 0
  end.

Section listeners.
Implicit Types (p : page) (d : document) (i j k n : nat).

Lemma listeners_fmap d i : listeners d i = default 0 ((clickListeners <$> tree d) !! i).
Proof. unfold listeners. rewrite list_lookup_fmap. by destruct (tree d !! i). Qed.

Lemma listeners_modify_le (f : element → element) j d i :
  (∀ e, clickListeners e ≤ clickListeners (f e)) →
  listeners d i ≤ listeners (modify f j d) i.
Proof.
  intros Hf. unfold listeners. rewrite tree_modify, list_lookup_alter.
  case_decide; [subst j|done]. destruct (tree d !! i); simpl; [apply Hf|done].
Qed.

Lemma listeners_add_listener d k :
  is_Some (tree d !! k) → listeners (modify add_listener k d) k = S (listeners d k).
Proof.
  intros [e He]. unfold listeners.
  by rewrite tree_modify, list_lookup_alter_eq, He.
Qed.

Lemma load_handler_listeners_le p i :
  listeners (doc p) i ≤ listeners (doc (load_handler p).2) i.
Proof.
  rewrite load_handler_eq. unfold displayed.
  repeat case_match; simpl;
    repeat (etrans; [|apply listeners_modify_le; simpl; lia]); done.
Qed.

Lemma load_handler_listeners_present p a b c k :
  present (doc p) a b c k → 0 < listeners (doc (load_handler p).2) k.
Proof.
  intros Hp. rewrite (load_handler_present p a b c k Hp); simpl. unfold opened.
  rewrite listeners_add_listener; [lia|].
  apply present_is_Some in Hp as (_ & _ & _ & Hk).
  unfold displayed. by rewrite !tree_lookup_modify_is_Some.
Qed.

Lemma step_listeners_le ev p i : listeners (doc p) i ≤ listeners (doc (step ev p)) i.
Proof.
  destruct ev as [|j|ms|].
  - simpl. induction (loadListeners p) as [|n IH]; simpl; [done|].
    rewrite invoke_load; simpl. etrans; [apply IH|].
    apply load_handler_listeners_le.
  - rewrite !listeners_fmap.
    by rewrite (step_field clickListeners (Click j)) by by repeat constructor.
  - done.
  - rewrite !listeners_fmap.
    by rewrite (step_field clickListeners Timeout) by by repeat constructor.
Qed.

Lemma run_listeners_le evs p i : listeners (doc p) i ≤ listeners (doc (run evs p)) i.
Proof.
  revert p. induction evs as [|ev evs IH]; intros p; [done|].
  rewrite run_cons. etrans; [apply step_listeners_le|apply IH].
Qed.

(** Once the load listener has run on a page with the four elements, the
    close control has a click listener. *)
Lemma step_load_listeners p a b c k :
  present (doc p) a b c k → 0 < loadListeners p →
  0 < listeners (doc (step Load p)) k.
Proof.
  intros Hp Hn. simpl. destruct (loadListeners p) as [|n]; [lia|]. simpl.
  rewrite invoke_load; simpl.
  apply load_handler_listeners_present with a b c.
  by rewrite iter_load_present.
Qed.

(** One or more runs of the click listener close the document. *)
Lemma iter_click_present n p a b c k :
  present (doc p) a b c k →
  let q := Nat.iter (S n) (invoke ClickHandler click_handler) p in
  doc q = closed a b c (doc p) ∧
  log q = log p ++ replicate (S n) (Enter ClickHandler).
Proof.
  intros Hp. induction n as [|n [Hd Hl]].
  - simpl. rewrite invoke_click, (click_handler_present p a b c k Hp). done.
  - remember (Nat.iter (S n) (invoke ClickHandler click_handler) p) as q eqn:Hq.
    change (Nat.iter (S (S n)) (invoke ClickHandler click_handler) p)
      with (invoke ClickHandler click_handler (Nat.iter (S n) (invoke ClickHandler click_handler) p)).
    rewrite <- Hq. simpl in Hd, Hl.
    assert (present (doc q) a b c k) as Hpq by by rewrite Hd, present_closed.
    cbv zeta. rewrite invoke_click, (click_handler_present q a b c k Hpq); simpl.
    rewrite Hd, Hl. split.
    + apply closed_idem. by apply present_is_Some in Hp as (_ & _ & ? & _).
    + rewrite <- (assoc_L (++)). f_equal.
      change (Enter ClickHandler :: replicate n (Enter ClickHandler))
        with (replicate (S n) (Enter ClickHandler)).
      by rewrite <- replicate_S_end.
Qed.
End listeners.

(** * The claims *)

(** C1: on a page that has the popup, the [.container], the overlay and the
    close control, the load listener runs to its end, and then the popup
    carries [show], the container carries [blur], the overlay does not carry
    [hide] and the body's [display] is [block]; the four lookups still find
    the same elements. *)
Theorem load_opens_popup (p : page) (a b c k : nat) :
  present (doc p) a b c k →
  ∃ p', load_handler p = (Normal tt, p') ∧
    present (doc p') a b c k ∧
    has (doc p') a "show" = true ∧
    has (doc p') b "blur" = true ∧
    has (doc p') c "hide" = false ∧
    style (body (doc p')) !! "display" = Some "block".
Proof.
  intros Hp. eexists. split; [by apply load_handler_present|]. simpl.
  destruct (present_is_Some _ _ _ _ _ Hp) as (Ha & Hb & _ & _).
  destruct (opened_open_state a b c k (doc p) Ha Hb) as (? & ? & ?).
  split_and!; try done.
  - by rewrite present_opened.
  - by rewrite style_body_opened, lookup_insert_eq.
Qed.

Lemma load_opens_popup_witness :
  present (doc (script sample_page)) 5 3 4 6 ∧
  ∃ p', load_handler (script sample_page) = (Normal tt, p') ∧
    present (doc p') 5 3 4 6 ∧
    has (doc p') 5 "show" = true ∧
    has (doc p') 3 "blur" = true ∧
    has (doc p') 4 "hide" = false ∧
    style (body (doc p')) !! "display" = Some "block".
Proof.
  split; [by vm_compute|].
  apply (load_opens_popup (script sample_page) 5 3 4 6). by vm_compute.
Defined.

(** C2: once the load event has been handled on a page with the four
    elements, whatever happened since, a click on the close control runs the
    click listener to its end: it removes [show] from the popup, removes
    [blur] from the container and adds [hide] to the overlay, and no
    exception is reported. *)
Theorem close_click_closes (p : page) (a b c k : nat) (evs : list event) :
  present (doc p) a b c k →
  let p1 := run (Load :: evs) (script p) in
  let p2 := step (Click k) p1 in
  doc p2 = closed a b c (doc p1) ∧
  has (doc p2) a "show" = false ∧
  has (doc p2) b "blur" = false ∧
  has (doc p2) c "hide" = true ∧
  ∃ n, 0 < n ∧ log p2 = log p1 ++ replicate n (Enter ClickHandler).
Proof.
  intros Hp p1 p2.
  assert (present (doc p1) a b c k) as Hp1 by by apply run_present.
  assert (0 < listeners (doc p1) k) as Hk.
  { unfold p1. rewrite run_cons.
    eapply Nat.lt_le_trans; [|apply run_listeners_le].
    apply step_load_listeners with a b c; [done|simpl; lia]. }
  unfold listeners in Hk. unfold p2; simpl.
  destruct (tree (doc p1) !! k) as [e|]; [|lia].
  destruct (clickListeners e) as [|n]; [lia|].
  destruct (iter_click_present n p1 a b c k Hp1) as [Hd Hl].
  rewrite Hd. destruct (present_is_Some _ _ _ _ _ Hp1) as (_ & _ & Hc & _).
  destruct (closed_closed_state a b c (doc p1) Hc) as (? & ? & ?).
  split_and!; try done. exists (S n). split; [lia|done].
Qed.

Lemma close_click_closes_witness :
  present (doc sample_page) 5 3 4 6 ∧
  let p1 := run [Load; Advance 60; Timeout] (script sample_page) in
  let p2 := step (Click 6) p1 in
  doc p2 = closed 5 3 4 (doc p1) ∧
  has (doc p2) 5 "show" = false ∧
  has (doc p2) 3 "blur" = false ∧
  has (doc p2) 4 "hide" = true ∧
  ∃ n, 0 < n ∧ log p2 = log p1 ++ replicate n (Enter ClickHandler).
Proof.
  split; [by vm_compute|].
  apply (close_click_closes sample_page 5 3 4 6 [Advance 60; Timeout]).
  by vm_compute.
Defined.

(** ** Missing elements *)

(** No element of the document has the id [s]. *)
Definition absent_id (s : string) (d : document) : Prop :=
  ∀ e, e ∈ tree d → el_id e ≠ Some s.

(** No element of the document carries the class [c]. *)
Definition absent_class (c : string) (d : document) : Prop :=
  ∀ e, e ∈ tree d → c ∉ classList e.

(** One of the elements the load listener needs is missing. *)
Definition load_absent (d : document) : Prop :=
  absent_id "popup" d ∨ absent_class "container" d ∨
  absent_id "overlay" d ∨ absent_id "close-popup" d.

(** One of the elements the click listener needs is missing. *)
Definition click_absent (d : document) : Prop :=
  absent_id "popup" d ∨ absent_class "container" d ∨ absent_id "overlay" d.

Section missing.
Implicit Types (p : page) (d : document).

Lemma find_first_None (P : element → bool) (l : list element) :
  find_first P l = None ↔ ∀ e, e ∈ l → P e = false.
Proof.
  induction l as [|x l IH]; simpl.
  - split; [|done]. intros _ e He. by apply elem_of_nil in He.
  - destruct (P x) eqn:E.
    + split; [done|]. intros H. specialize (H x). rewrite E in H.
      discriminate H. by left.
    + destruct (find_first P l) as [i|]; simpl.
      * split; [done|]. intros H. destruct IH as [_ IH].
        discriminate IH. intros e He. apply H. by right.
      * split; [|done]. intros _ e [->|He]%elem_of_cons; [done|].
        by apply IH.
Qed.

Lemma absent_id_lookup s d :
  absent_id s d ↔ find_first (has_id s) (tree d) = None.
Proof.
  rewrite find_first_None. unfold absent_id, has_id.
  by setoid_rewrite bool_decide_eq_false.
Qed.

Lemma absent_class_lookup c d :
  absent_class c d ↔ find_first (matches (ClassSel c)) (tree d) = None.
Proof.
  rewrite find_first_None. unfold absent_class; simpl.
  unfold has_class, contains. by setoid_rewrite bool_decide_eq_false.
Qed.

Lemma load_absent_lookups d :
  load_absent d ↔
  popup_of d = None ∨ container_of d = None ∨ overlay_of d = None ∨ close_of d = None.
Proof.
  unfold load_absent. by rewrite !absent_id_lookup, absent_class_lookup.
Qed.

Lemma click_absent_lookups d :
  click_absent d ↔
  popup_of d = None ∨ container_of d = None ∨ overlay_of d = None.
Proof.
  unfold click_absent. by rewrite !absent_id_lookup, absent_class_lookup.
Qed.

(** The load listener throws exactly when one of its elements is missing,
    and then it registers no click listener. *)
Lemma load_handler_faults p :
  load_absent (doc p) →
  (load_handler p).1 = Abrupt TypeError ∧
  clickListeners <$> tree (doc (load_handler p).2) = clickListeners <$> tree (doc p).
Proof.
  rewrite load_absent_lookups, load_handler_eq. unfold displayed.
  intros H. repeat case_match; simpl; try (by rewrite !fmap_tree_modify).
  naive_solver.
Qed.

Lemma click_handler_faults p :
  click_absent (doc p) → (click_handler p).1 = Abrupt TypeError.
Proof.
  rewrite click_absent_lookups, click_handler_eq.
  intros H. repeat case_match; simpl; try done. naive_solver.
Qed.

Lemma load_handler_no_popup p :
  popup_of (doc p) = None →
  classList <$> tree (doc (load_handler p).2) = classList <$> tree (doc p).
Proof.
  intros H. rewrite load_handler_eq, H; simpl. unfold displayed.
  by rewrite fmap_tree_modify.
Qed.

(** Faulting or not, the load listener has displayed the body. *)
Lemma load_handler_display p :
  style (body (doc (load_handler p).2)) !! "display" = Some "block".
Proof.
  rewrite load_handler_eq.
  repeat case_match; simpl; rewrite ?(body_field_modify style) by done;
    rewrite body_displayed; simpl; by rewrite lookup_insert_eq.
Qed.

Lemma pop_due_single now t : t ≤ now → pop_due now [t] = Some [].
Proof. intros. simpl. by rewrite decide_True. Qed.
End missing.

(** C3: when an element the script refers to is missing, its lookup gives
    [null] and the access on [null] throws a [TypeError] that nothing
    catches.  It ends the handler that was running and nothing else: the load
    listener has already displayed the body and scheduled its timeout, which
    still fires; the statements after the faulting one are not run, so no
    click listener is registered and, when the popup is the missing element,
    no class list has changed; a faulting click listener leaves the timers
    and the registered listeners as they were. *)
Theorem missing_element_faults (p0 : page) :
  fresh p0 → load_absent (doc p0) →
  let p := script p0 in
  let p1 := step Load p in
  (absent_id "popup" (doc p0) → getElementById "popup" p = (Normal None, p)) ∧
  (absent_class "container" (doc p0) →
     querySelector (ClassSel "container") p = (Normal None, p)) ∧
  (absent_id "overlay" (doc p0) → getElementById "overlay" p = (Normal None, p)) ∧
  (absent_id "close-popup" (doc p0) →
     getElementById "close-popup" p = (Normal None, p)) ∧
  (∀ f q, on_element None f q = (Abrupt TypeError, q)) ∧
  log p1 = [Enter LoadHandler; Uncaught TypeError] ∧
  loadListeners p1 = 1 ∧
  Forall (λ e, clickListeners e = 0) (tree (doc p1)) ∧
  (absent_id "popup" (doc p0) →
     classList <$> tree (doc p1) = classList <$> tree (doc p0)) ∧
  style (body (doc p1)) !! "display" = Some "block" ∧
  timers p1 = [clock p0 + 50] ∧
  (∀ ms, 50 ≤ ms →
     let p2 := run [Advance ms; Timeout] p1 in
     style (body (doc p2)) !! "opacity" = Some "1" ∧
     log p2 = [Enter LoadHandler; Uncaught TypeError; Enter RevealCallback]) ∧
  (∀ q, click_absent (doc q) →
     let q' := invoke ClickHandler click_handler q in
     log q' = log q ++ [Enter ClickHandler; Uncaught TypeError] ∧
     timers q' = timers q ∧ loadListeners q' = loadListeners q ∧
     clickListeners <$> tree (doc q') = clickListeners <$> tree (doc q)).
Proof.
  intros (Ht & Hn & Hl & Hz) Habs p p1.
  assert (p1 = invoke LoadHandler load_handler p) as Hp1.
  { unfold p1, p. simpl. by rewrite Hn. }
  destruct (load_handler_faults p Habs) as [Hf Hk].
  rewrite Hp1, invoke_load, Hf. simpl. rewrite Ht, Hl. simpl.
  split_and!; try done.
  - intros H%absent_id_lookup. by rewrite <- H.
  - intros H%absent_class_lookup. by rewrite <- H.
  - intros H%absent_id_lookup. by rewrite <- H.
  - intros H%absent_id_lookup. by rewrite <- H.
  - by rewrite Hn.
  - apply (Forall_fmap clickListeners (λ n, n = 0)). rewrite Hk.
    by apply Forall_fmap.
  - intros H%absent_id_lookup. exact (load_handler_no_popup p H).
  - apply load_handler_display.
  - intros ms Hms. unfold run; simpl.
    rewrite decide_True by lia. rewrite invoke_reveal; simpl.
    rewrite body_modify, decide_True by done. simpl.
    by rewrite lookup_insert_eq.
  - intros q Hq. rewrite invoke_click, (click_handler_faults q Hq); simpl.
    split_and!; try done.
    apply click_handler_field; by intros e.
Qed.

Definition no_popup_doc : document :=
  Document [plain; plain] plain
    [ Element None ["container"] ∅ 0;
      Element (Some "overlay") ["overlay"; "hide"] ∅ 0;
      Element (Some "close-popup") [] ∅ 0 ].

Definition no_popup_page : page := Page no_popup_doc 0 [] 0 [].

Lemma sample_fresh : fresh sample_page.
Proof. unfold fresh. split_and!; try done. by repeat constructor. Defined.

Lemma no_popup_fresh : fresh no_popup_page.
Proof. unfold fresh. split_and!; try done. by repeat constructor. Defined.

Lemma no_popup_absent : load_absent no_popup_doc.
Proof. left. by apply absent_id_lookup. Defined.

Lemma missing_element_faults_witness :
  fresh no_popup_page ∧ load_absent (doc no_popup_page) ∧
  log (step Load (script no_popup_page)) = [Enter LoadHandler; Uncaught TypeError] ∧
  classList <$> tree (doc (step Load (script no_popup_page))) =
    classList <$> tree no_popup_doc.
Proof.
  split; [exact no_popup_fresh|]. split; [exact no_popup_absent|].
  destruct (missing_element_faults no_popup_page no_popup_fresh no_popup_absent)
    as (_ & _ & _ & _ & _ & Hlog & _ & _ & Hcls & _).
  split; [exact Hlog|]. apply Hcls. by apply absent_id_lookup.
Defined.

(** ** The reveal timeout *)

#[global] Instance exn_eq_dec : EqDecision exn.
Proof. solve_decision. Defined.
#[global] Instance handler_eq_dec : EqDecision handler.
Proof. solve_decision. Defined.
#[global] Instance entry_eq_dec : EqDecision entry.
Proof. solve_decision. Defined.
#[global] Instance event_eq_dec : EqDecision event.
Proof. solve_decision. Defined.

(** The body's opacity, when its inline style gives one. *)
Definition opacity (p : page) : option string :=
  style (body (doc p)) !! "opacity".

(** How many times the reveal callback has been run. *)
Definition reveals (l : list entry) : nat :=
  length (filter (λ x, x = Enter RevealCallback) l).

Section reveal.
Implicit Types (p q : page) (ev : event).

Lemma step_body_field {X} (g : element → X) ev p :
  Forall (keeps g) (edits_of ev) →
  g (body (doc (step ev p))) = g (body (doc p)).
Proof.
  intros Hk. apply (inj Some).
  rewrite <- !(body_field g), step_body_index. by rewrite step_field.
Qed.

Lemma reveals_app l l' : reveals (l ++ l') = reveals l + reveals l'.
Proof. unfold reveals. by rewrite filter_app, length_app. Qed.

Lemma reveals_none l :
  Forall (λ x, x ≠ Enter RevealCallback) l → reveals l = 0.
Proof.
  unfold reveals. induction 1 as [|x l Hx _ IH]; [done|].
  by rewrite filter_cons_False.
Qed.

Lemma keeps_opacity_load :
  Forall (keeps (λ e, style e !! "opacity")) (edits_of Load).
Proof.
  simpl. repeat (apply Forall_cons_2; [|]); try apply Forall_nil_2;
    intros e; simpl; by rewrite ?lookup_insert_ne.
Qed.

Lemma keeps_opacity_click i :
  Forall (keeps (λ e, style e !! "opacity")) (edits_of (Click i)).
Proof.
  simpl. repeat (apply Forall_cons_2; [|]); try apply Forall_nil_2; by intros e.
Qed.
End reveal.

(** The timeout of the load listener is still in the queue and the body's
    opacity is what it was before the load event. *)
Definition pending (p0 q : page) : Prop :=
  timers q = [clock p0 + 50] ∧ opacity q = opacity p0 ∧ reveals (log q) = 0.

(** The timeout has run, once, and is gone from the queue. *)
Definition fired (p0 q : page) : Prop :=
  timers q = [] ∧ opacity q = Some "1" ∧ clock p0 + 50 ≤ clock q ∧
  reveals (log q) = 1.

Section timeout.
Implicit Types (p q : page) (ev : event).

Lemma step_click_rest i p :
  clock (step (Click i) p) = clock p ∧ timers (step (Click i) p) = timers p ∧
  ∃ extra, log (step (Click i) p) = log p ++ extra ∧
    Forall (λ x, x ≠ Enter LoadHandler ∧ x ≠ Enter RevealCallback) extra.
Proof.
  simpl. destruct (tree (doc p) !! i) as [e|].
  - destruct (iter_click_rest (clickListeners e) p)
      as (? & ? & _ & extra & ? & ? & _). eauto.
  - split_and!; try done. exists []. by rewrite app_nil_r.
Qed.

Lemma step_timeout_due p t :
  timers p = [t] → t ≤ clock p →
  step Timeout p =
    Page (modify (set_style "opacity" "1") (body_index (doc p)) (doc p))
         (clock p) [] (loadListeners p) (log p ++ [Enter RevealCallback]).
Proof. intros Ht Hle. simpl. by rewrite Ht, pop_due_single. Qed.

Lemma step_timeout_early p t :
  timers p = [t] → clock p < t → step Timeout p = p.
Proof. intros Ht Hlt. simpl. rewrite Ht. simpl. by rewrite decide_False by lia. Qed.

Lemma pending_fires p0 q :
  pending p0 q → clock p0 + 50 ≤ clock q → fired p0 (step Timeout q).
Proof.
  intros (Ht & _ & Hr) Hle. rewrite (step_timeout_due q _ Ht Hle).
  unfold fired, opacity; simpl. split_and!; try done.
  - rewrite body_modify, decide_True by done. simpl. by rewrite lookup_insert_eq.
  - by rewrite reveals_app, Hr.
Qed.

Lemma step_reveal_inv p0 ev q :
  ev ≠ Load → pending p0 q ∨ fired p0 q →
  pending p0 (step ev q) ∨ fired p0 (step ev q).
Proof.
  intros Hev Hq. destruct ev as [|i|ms|]; [done|..].
  - destruct (step_click_rest i q) as (Hc & Ht & extra & Hl & Hx).
    assert (opacity (step (Click i) q) = opacity q) as Ho
      by apply (step_body_field (λ e, style e !! "opacity")), keeps_opacity_click.
    assert (reveals (log (step (Click i) q)) = reveals (log q)) as Hr.
    { rewrite Hl, reveals_app, (reveals_none extra); [lia|].
      eapply Forall_impl; [exact Hx|]. naive_solver. }
    unfold pending, fired in *. rewrite Hc, Ht, Ho, Hr. exact Hq.
  - unfold pending, fired, opacity in *. simpl.
    destruct Hq as [?|(? & ? & ? & ?)]; [by left|right].
    split_and!; try done. lia.
  - destruct Hq as [Hq|Hq].
    + destruct (decide (clock p0 + 50 ≤ clock q)) as [Hle|Hgt].
      * right. by apply pending_fires.
      * left. rewrite (step_timeout_early q (clock p0 + 50)); [done| |lia].
        apply Hq.
    + right. destruct Hq as (Ht & ?). simpl. by rewrite Ht.
Qed.

Lemma load_pending p0 : fresh p0 → pending p0 (step Load (script p0)).
Proof.
  intros (Ht & Hn & Hl & _). unfold pending.
  assert (opacity (step Load (script p0)) = opacity (script p0)) as ->
    by apply (step_body_field (λ e, style e !! "opacity")), keeps_opacity_load.
  simpl. rewrite Hn. simpl. rewrite invoke_load. simpl. rewrite Ht, Hl.
  split_and!; try done. simpl.
  apply reveals_none. constructor; [done|].
  destruct (load_handler _).1; simpl; by repeat constructor.
Qed.
End timeout.

(** C4: the load listener schedules one timeout, due 50 ms after the load
    event was handled, and nothing the script does takes it out of the queue
    before it runs.  Until it has run the body's opacity is what it was
    before the load event; the event loop cannot run it before it is due;
    when it runs it sets the opacity to 1 and leaves the queue, and it never
    runs again. *)
Theorem reveal_timeout (p0 : page) (evs : list event) :
  fresh p0 → Load ∉ evs →
  let p1 := step Load (script p0) in
  let q := run evs p1 in
  pending p0 p1 ∧
  (pending p0 q ∨ fired p0 q) ∧
  (pending p0 q → clock q < clock p0 + 50 → step Timeout q = q) ∧
  (pending p0 q → clock p0 + 50 ≤ clock q → fired p0 (step Timeout q)).
Proof.
  intros Hf Hevs p1 q. split; [by apply load_pending|].
  split; [|split].
  - unfold q. clear q. induction evs as [|ev evs IH] using rev_ind.
    + left. by apply load_pending.
    + rewrite run_snoc. apply step_reveal_inv.
      * intros ->. apply Hevs. set_solver.
      * apply IH. set_solver.
  - intros (Ht & _) Hlt. by apply step_timeout_early with (clock p0 + 50).
  - apply pending_fires.
Qed.

Lemma reveal_timeout_witness :
  fresh sample_page ∧
  (Load ∉ [Click 6; Advance 20; Timeout; Advance 40; Timeout]) ∧
  let q := run [Click 6; Advance 20; Timeout; Advance 40; Timeout]
             (step Load (script sample_page)) in
  pending sample_page q ∨ fired sample_page q.
Proof.
  split; [exact sample_fresh|].
  assert (Load ∉ [Click 6; Advance 20; Timeout; Advance 40; Timeout]) as H.
  { intros H. repeat (apply elem_of_cons in H as [H|H]; [discriminate H|]).
    by apply elem_of_nil in H. }
  split; [exact H|].
  apply (reveal_timeout sample_page _ sample_fresh H).
Defined.

(** ** Closing twice *)

Section closing.
Implicit Types (p : page) (d : document).

Lemma lookups_closed a b c d :
  popup_of (closed a b c d) = popup_of d ∧
  container_of (closed a b c d) = container_of d ∧
  overlay_of (closed a b c d) = overlay_of d.
Proof.
  unfold closed.
  by rewrite !popup_of_modify, !container_of_modify, !overlay_of_modify
    by auto with harmless.
Qed.

Lemma click_handler_found p a b c :
  popup_of (doc p) = Some a → container_of (doc p) = Some b →
  overlay_of (doc p) = Some c →
  click_handler p =
    (Normal tt,
     Page (closed a b c (doc p)) (clock p) (timers p) (loadListeners p) (log p)).
Proof. intros Ha Hb Hc. by rewrite click_handler_eq, Ha, Hb, Hc. Qed.
End closing.

(** C5: with the popup, the container and the overlay in the document, the
    click listener runs to its end and leaves the page closed (no [show] on
    the popup, no [blur] on the container, [hide] on the overlay); run again
    on the page it produced, it ends normally and changes nothing; run on a
    page that is closed already, opened before or not, it changes nothing
    either. *)
Theorem click_handler_idempotent (p : page) (a b c : nat) :
  popup_of (doc p) = Some a → container_of (doc p) = Some b →
  overlay_of (doc p) = Some c →
  ∃ p1, click_handler p = (Normal tt, p1) ∧
    click_handler p1 = (Normal tt, p1) ∧
    closed_state (doc p1) a b c ∧
    (closed_state (doc p) a b c → p1 = p).
Proof.
  intros Ha Hb Hc. eexists. split; [by apply click_handler_found|].
  assert (is_Some (tree (doc p) !! c)) as Hic.
  { apply find_first_Some in Hc as (e & ? & _). eauto. }
  destruct (lookups_closed a b c (doc p)) as (Ha' & Hb' & Hc').
  split_and!.
  - rewrite (click_handler_found _ a b c); simpl; [|congruence..].
    by rewrite closed_idem.
  - by apply closed_closed_state.
  - intros Hcl. rewrite closed_noop by done. by destruct p.
Qed.

Lemma click_handler_idempotent_witness :
  popup_of (doc sample_page) = Some 5 ∧ container_of (doc sample_page) = Some 3 ∧
  overlay_of (doc sample_page) = Some 4 ∧
  ∃ p1, click_handler sample_page = (Normal tt, p1) ∧
    click_handler p1 = (Normal tt, p1) ∧
    closed_state (doc p1) 5 3 4 ∧
    (closed_state (doc sample_page) 5 3 4 → p1 = sample_page).
Proof.
  split_and!; [done..|].
  by apply (click_handler_idempotent sample_page 5 3 4).
Defined.

(** ** The three marks of the popup state *)

Definition popup_shown (d : document) : bool :=
  match popup_of d with Some a => has d a "show" | None => false end.

Definition container_blurred (d : document) : bool :=
  match container_of d with Some b => has d b "blur" | None => false end.

Definition overlay_visible (d : document) : bool :=
  match overlay_of d with Some c => negb (has d c "hide") | None => false end.

(** The three marks agree. *)
Definition in_sync (d : document) : Prop :=
  popup_shown d = container_blurred d ∧ container_blurred d = overlay_visible d.

(** The sample page without its [.container]. *)
Definition no_container_doc : document :=
  Document [plain; plain] plain
    [ Element (Some "overlay") ["overlay"; "hide"] ∅ 0;
      Element (Some "popup") ["popup"] ∅ 0;
      Element (Some "close-popup") [] ∅ 0 ].

Definition no_container_page : page := Page no_container_doc 0 [] 0 [].

Section sync.
Implicit Types (p q : page) (d : document) (ev : event).

Lemma open_state_in_sync d a b c k :
  present d a b c k → open_state d a b c → in_sync d.
Proof.
  intros (Ha & Hb & Hc & _) (Hs & Hbl & Hh).
  unfold in_sync, popup_shown, container_blurred, overlay_visible.
  by rewrite Ha, Hb, Hc, Hs, Hbl, Hh.
Qed.

Lemma closed_state_in_sync d a b c k :
  present d a b c k → closed_state d a b c → in_sync d.
Proof.
  intros (Ha & Hb & Hc & _) (Hs & Hbl & Hh).
  unfold in_sync, popup_shown, container_blurred, overlay_visible.
  by rewrite Ha, Hb, Hc, Hs, Hbl, Hh.
Qed.

(** One or more runs of the load listener leave the document open. *)
Lemma iter_load_open n p a b c k :
  present (doc p) a b c k →
  open_state (doc (Nat.iter (S n) (invoke LoadHandler load_handler) p)) a b c.
Proof.
  intros Hp. simpl. rewrite invoke_load; simpl.
  set (q := Nat.iter n (invoke LoadHandler load_handler) p).
  assert (present (doc q) a b c k) as Hq by by apply iter_load_present.
  rewrite (load_handler_present q a b c k Hq); simpl.
  destruct (present_is_Some _ _ _ _ _ Hq) as (? & ? & _).
  by apply opened_open_state.
Qed.

Lemma step_load_open p a b c k :
  present (doc p) a b c k → 0 < loadListeners p →
  open_state (doc (step Load p)) a b c.
Proof.
  intros Hp Hn. simpl. destruct (loadListeners p) as [|n]; [lia|].
  by apply iter_load_open with k.
Qed.

Lemma step_sync ev p a b c k :
  present (doc p) a b c k → in_sync (doc p) → in_sync (doc (step ev p)).
Proof.
  intros Hp Hs.
  assert (present (doc (step ev p)) a b c k) as Hp' by by apply step_present.
  destruct ev as [|i|ms|].
  - simpl in *. destruct (loadListeners p) as [|n]; [done|].
    apply open_state_in_sync with a b c k; [done|].
    by apply iter_load_open with k.
  - simpl in *. destruct (tree (doc p) !! i) as [e|]; [|done].
    destruct (clickListeners e) as [|n]; [done|].
    apply closed_state_in_sync with a b c k; [done|].
    destruct (iter_click_present n p a b c k Hp) as [-> _].
    apply closed_closed_state.
    by apply present_is_Some in Hp as (_ & _ & ? & _).
  - done.
  - simpl in *. destruct (pop_due _ _); [|done].
    rewrite invoke_reveal in *; simpl in *.
    unfold in_sync, popup_shown, container_blurred, overlay_visible in *.
    rewrite popup_of_modify, container_of_modify, overlay_of_modify
      by auto with harmless.
    destruct (popup_of (doc p)), (container_of (doc p)), (overlay_of (doc p));
      by rewrite ?has_set_style.
Qed.

Lemma run_sync evs q a b c k :
  present (doc q) a b c k → 0 < loadListeners q →
  in_sync (doc q) ∨ Load ∈ evs → in_sync (doc (run evs q)).
Proof.
  revert q. induction evs as [|ev evs IH]; intros q Hp Hn Hs.
  - destruct Hs as [Hs|Hs]; [done|]. by apply elem_of_nil in Hs.
  - rewrite run_cons. apply IH.
    + by apply step_present.
    + by rewrite step_loadListeners.
    + destruct Hs as [Hs|[<-|Hs]%elem_of_cons].
      * left. by apply step_sync with a b c k.
      * left. apply open_state_in_sync with a b c k; [by apply step_present|].
        by apply step_load_open with k.
      * by right.
Qed.
End sync.

(** C6, as amended: on a page that has the four elements, after any run of
    events (load, clicks, time passing, timeouts) that contains a load
    event or started with the three marks in agreement, the popup carries
    [show] exactly when the container carries [blur] and exactly when the
    overlay does not carry [hide]. *)
Theorem marks_in_sync (p : page) (a b c k : nat) (evs : list event) :
  present (doc p) a b c k →
  in_sync (doc p) ∨ Load ∈ evs →
  in_sync (doc (run evs (script p))).
Proof.
  intros Hp Hs. apply run_sync with a b c k; [done|simpl; lia|done].
Qed.

Lemma marks_in_sync_witness :
  present (doc sample_page) 5 3 4 6 ∧
  (in_sync (doc sample_page) ∨ Load ∈ [Load; Click 6]) ∧
  in_sync (doc (run [Load; Click 6] (script sample_page))).
Proof.
  assert (in_sync (doc sample_page) ∨ Load ∈ [Load; Click 6]) as H
    by (right; apply elem_of_cons; by left).
  split; [done|]. split; [exact H|].
  by apply (marks_in_sync sample_page 5 3 4 6 [Load; Click 6]).
Defined.

(** C6 as stated fails: on a page without the [.container] the load
    listener marks the popup shown and then faults, so the overlay stays
    hidden. *)
Lemma marks_out_of_sync :
  fresh no_container_page ∧
  in_sync (doc no_container_page) ∧
  let q := run [Load] (script no_container_page) in
  popup_shown (doc q) = true ∧ container_blurred (doc q) = false ∧
  overlay_visible (doc q) = false ∧ ¬ in_sync (doc q).
Proof.
  split; [|split; [done|]].
  - unfold fresh. split_and!; try done. by repeat constructor.
  - split_and!; try by vm_compute. by intros [? _].
Qed.

(** ** The order of the handlers in the log *)

(** No element of the document has a click listener. *)
Definition unlistened (d : document) : Prop :=
  Forall (λ e, clickListeners e = 0) (tree d).

(** Every run of the click listener in [l] comes after a run of the load
    listener. *)
Definition load_first (l : list entry) : Prop :=
  ∀ l1 l2, l = l1 ++ Enter ClickHandler :: l2 → Enter LoadHandler ∈ l1.

Section order.
Implicit Types (p q : page) (ev : event) (l extra : list entry).

Lemma unlistened_fmap d d' :
  clickListeners <$> tree d' = clickListeners <$> tree d →
  unlistened d → unlistened d'.
Proof.
  unfold unlistened. intros Hk Hz.
  apply (Forall_fmap clickListeners (λ n, n = 0)). rewrite Hk.
  by apply Forall_fmap.
Qed.

Lemma unlistened_click i p : unlistened (doc p) → step (Click i) p = p.
Proof.
  intros Hz. simpl. destruct (tree (doc p) !! i) as [e|] eqn:E; [|done].
  unfold unlistened in Hz. rewrite Forall_forall in Hz.
  by rewrite (Hz e (list_elem_of_lookup_2 _ _ _ E)).
Qed.

Lemma unlistened_listeners d i : unlistened d → listeners d i = 0.
Proof.
  intros Hz. unfold listeners. destruct (tree d !! i) as [e|] eqn:E; [|done].
  unfold unlistened in Hz. rewrite Forall_forall in Hz.
  apply Hz. by eapply list_elem_of_lookup_2.
Qed.

Lemma load_first_app l extra :
  load_first l → (Enter ClickHandler ∈ extra → Enter LoadHandler ∈ l) →
  load_first (l ++ extra).
Proof.
  intros Hl Hx l1 l2 [(k & -> & Hk)|(k & -> & ->)]%app_eq_inv.
  - destruct k as [|x k]; simpl in Hk.
    + rewrite app_nil_r in *. apply Hx. rewrite <- Hk. by left.
    + injection Hk as <- _. by apply (Hl l1 k).
  - apply elem_of_app. left. apply Hx. apply elem_of_app. right. by left.
Qed.

(** What one event adds to the log, and when it can add a run of the click
    listener or leave the click listeners as they were. *)
Lemma step_log ev q :
  ∃ extra, log (step ev q) = log q ++ extra ∧
    (Enter ClickHandler ∈ extra → ∃ i, ev = Click i ∧ 0 < listeners (doc q) i) ∧
    (Enter LoadHandler ∉ extra →
       clickListeners <$> tree (doc (step ev q)) = clickListeners <$> tree (doc q)).
Proof.
  destruct ev as [|i|ms|].
  - simpl. destruct (iter_load_rest (loadListeners q) q)
      as (_ & _ & _ & extra & Hl & Hx & Hn).
    exists extra. split; [done|]. split.
    + intros Hc. rewrite Forall_forall in Hx. by destruct (Hx _ Hc).
    + intros Hnl. destruct (loadListeners q) as [|n]; [done|].
      destruct Hnl. apply Hn. lia.
  - pose proof (step_field clickListeners (Click i) q) as Hk.
    simpl in *. unfold listeners.
    destruct (tree (doc q) !! i) as [e|] eqn:E.
    + destruct (iter_click_rest (clickListeners e) q)
        as (_ & _ & _ & extra & Hl & _ & Hn).
      exists extra. split; [done|]. split.
      * intros Hc. exists i. split; [done|]. rewrite E.
        destruct (clickListeners e); [|lia].
        rewrite Hn in Hc by done. by apply elem_of_nil in Hc.
      * intros _. apply Hk. by repeat constructor.
    + exists []. rewrite app_nil_r. split; [done|]. split; [|done].
      by intros ?%elem_of_nil.
  - exists []. simpl. rewrite app_nil_r. split; [done|]. split; [|done].
    by intros ?%elem_of_nil.
  - pose proof (step_field clickListeners Timeout q) as Hk. simpl in *.
    destruct (pop_due _ _).
    + exists [Enter RevealCallback]. split; [done|]. split.
      * intros [?|?%elem_of_nil]%elem_of_cons; done.
      * intros _. apply Hk. by repeat constructor.
    + exists []. rewrite app_nil_r. split; [done|]. split; [|done].
      by intros ?%elem_of_nil.
Qed.

Lemma step_load_first ev q :
  (Enter LoadHandler ∈ log q ∨ unlistened (doc q)) ∧ load_first (log q) →
  (Enter LoadHandler ∈ log (step ev q) ∨ unlistened (doc (step ev q))) ∧
  load_first (log (step ev q)).
Proof.
  intros [Hz Hl]. destruct (step_log ev q) as (extra & -> & Hc & Hk). split.
  - destruct Hz as [Hz|Hz]; [left; apply elem_of_app; by left|].
    destruct (decide (Enter LoadHandler ∈ extra)) as [Hin|Hnin].
    + left. apply elem_of_app. by right.
    + right. by apply (unlistened_fmap (doc q)); [apply Hk|].
  - apply load_first_app; [done|]. intros (i & _ & Hi)%Hc.
    destruct Hz as [Hz|Hz]; [done|]. rewrite unlistened_listeners in Hi by done. lia.
Qed.

Lemma run_load_first evs q :
  (Enter LoadHandler ∈ log q ∨ unlistened (doc q)) ∧ load_first (log q) →
  load_first (log (run evs q)).
Proof.
  revert q. induction evs as [|ev evs IH]; intros q Hq; [apply Hq|].
  rewrite run_cons. by apply IH, step_load_first.
Qed.

(** Before the load event, a page the script has been evaluated on only
    sees time pass. *)
Lemma run_before_load evs p0 :
  fresh p0 → Load ∉ evs →
  ∃ t, run evs (script p0) = Page (doc p0) t [] 1 [].
Proof.
  intros (Ht & Hn & Hl & Hz) Hevs.
  assert (∃ t, script p0 = Page (doc p0) t [] 1 []) as [t ->].
  { exists (clock p0). unfold script. by rewrite Ht, Hn, Hl. }
  revert t. induction evs as [|ev evs IH]; intros t; [by exists t|].
  rewrite run_cons.
  assert (Load ∉ evs) as Hevs' by set_solver.
  destruct ev as [|i|ms|].
  - destruct Hevs. by left.
  - rewrite unlistened_click by done. by apply IH.
  - apply (IH Hevs' (t + ms)).
  - by apply IH.
Qed.
End order.

(** C7: the click listener is registered by the load listener and by
    nothing else.  On a page the script has just been evaluated on, in every
    run of events each run of the click listener comes after a run of the
    load listener; and as long as no load event has been handled nothing is
    logged, no timeout is queued and the document is what it was, whatever is
    clicked. *)
Theorem click_only_after_load (p0 : page) (evs : list event) :
  fresh p0 →
  let q := run evs (script p0) in
  (∀ l1 l2, log q = l1 ++ Enter ClickHandler :: l2 → Enter LoadHandler ∈ l1) ∧
  (Load ∉ evs → doc q = doc p0 ∧ log q = [] ∧ timers q = []).
Proof.
  intros Hf q. split.
  - apply run_load_first. destruct Hf as (_ & _ & Hl & Hz). simpl. split.
    + by right.
    + rewrite Hl. by intros [|??] ??.
  - intros Hevs. destruct (run_before_load evs p0 Hf Hevs) as [t Ht].
    unfold q. by rewrite Ht.
Qed.

Lemma click_only_after_load_witness :
  fresh sample_page ∧
  let q := run [Click 6; Load; Click 6] (script sample_page) in
  ∀ l1 l2, log q = l1 ++ Enter ClickHandler :: l2 → Enter LoadHandler ∈ l1.
Proof.
  split; [exact sample_fresh|].
  apply (click_only_after_load sample_page [Click 6; Load; Click 6] sample_fresh).
Defined.

(** ** The body *)

(** The body is not the element any of the four lookups finds. *)
Definition body_untargeted (d : document) : Prop :=
  popup_of d ≠ Some (body_index d) ∧ container_of d ≠ Some (body_index d) ∧
  overlay_of d ≠ Some (body_index d) ∧ close_of d ≠ Some (body_index d).

(** The sample page with [class="container"] on the body itself. *)
Definition body_container_doc : document :=
  Document [plain; plain] (Element None ["container"] ∅ 0)
    [ Element (Some "overlay") ["overlay"; "hide"] ∅ 0;
      Element (Some "popup") ["popup"] ∅ 0;
      Element (Some "close-popup") [] ∅ 0 ].

Definition body_container_page : page := Page body_container_doc 0 [] 0 [].

Ltac solve_keeps :=
  simpl;
  repeat (apply Forall_cons_2;
    [intros ?; simpl; by rewrite ?lookup_insert_ne by done|]);
  apply Forall_nil_2.

Section body_frame.
Implicit Types (p q : page) (d : document) (ev : event).

Lemma body_modify_ne (f : element → element) i d :
  i ≠ body_index d → body (modify f i d) = body d.
Proof. intros. by rewrite body_modify, decide_False. Qed.

Lemma load_handler_body {X} (g : element → X) p :
  keeps g (set_style "display" "block") → body_untargeted (doc p) →
  g (body (doc (load_handler p).2)) = g (body (doc p)).
Proof.
  intros Hg (Ha & Hb & Hc & Hk). rewrite load_handler_eq.
  destruct (popup_of (doc p)) as [a|] eqn:Ea,
    (container_of (doc p)) as [b|] eqn:Eb,
    (overlay_of (doc p)) as [c|] eqn:Ec,
    (close_of (doc p)) as [k|] eqn:Ek; simpl; unfold displayed;
    rewrite ?body_modify_ne by (rewrite ?body_index_modify; congruence);
    by rewrite body_modify, decide_True.
Qed.

Lemma click_handler_body {X} (g : element → X) p :
  body_untargeted (doc p) →
  g (body (doc (click_handler p).2)) = g (body (doc p)).
Proof.
  intros (Ha & Hb & Hc & Hk). rewrite click_handler_eq.
  destruct (popup_of (doc p)) as [a|] eqn:Ea,
    (container_of (doc p)) as [b|] eqn:Eb,
    (overlay_of (doc p)) as [c|] eqn:Ec; simpl;
    by rewrite ?body_modify_ne by (rewrite ?body_index_modify; congruence).
Qed.

Lemma body_untargeted_step ev p :
  body_untargeted (doc (step ev p)) ↔ body_untargeted (doc p).
Proof.
  unfold body_untargeted. rewrite step_body_index.
  by destruct (step_lookups ev p) as (-> & -> & -> & ->).
Qed.

Lemma iter_load_untargeted n p :
  body_untargeted (doc (Nat.iter n (invoke LoadHandler load_handler) p)) ↔
  body_untargeted (doc p).
Proof.
  assert (body_index (doc (Nat.iter n (invoke LoadHandler load_handler) p)) =
          body_index (doc p)) as Hb.
  { induction n as [|n IH]; simpl; [done|].
    rewrite invoke_load; simpl. by rewrite load_handler_body_index. }
  unfold body_untargeted, popup_of, container_of, overlay_of, close_of.
  rewrite Hb.
  rewrite !(find_first_ext _ (tree (doc (Nat.iter n _ p))) (tree (doc p))); [done|..];
    apply iter_load_field;
    (eapply Forall_impl; [apply (edits_harmless Load)|]);
    auto using harmless_keeps_id, harmless_keeps_container.
Qed.

Lemma iter_click_untargeted n p :
  body_untargeted (doc (Nat.iter n (invoke ClickHandler click_handler) p)) ↔
  body_untargeted (doc p).
Proof.
  assert (body_index (doc (Nat.iter n (invoke ClickHandler click_handler) p)) =
          body_index (doc p)) as Hb.
  { induction n as [|n IH]; simpl; [done|].
    rewrite invoke_click; simpl. by rewrite click_handler_body_index. }
  unfold body_untargeted, popup_of, container_of, overlay_of, close_of.
  rewrite Hb.
  rewrite !(find_first_ext _ (tree (doc (Nat.iter n _ p))) (tree (doc p))); [done|..];
    apply iter_click_field;
    (eapply Forall_impl; [apply (edits_harmless (Click 0))|]);
    auto using harmless_keeps_id, harmless_keeps_container.
Qed.

Lemma iter_load_body {X} (g : element → X) n p :
  keeps g (set_style "display" "block") → body_untargeted (doc p) →
  g (body (doc (Nat.iter n (invoke LoadHandler load_handler) p))) = g (body (doc p)).
Proof.
  intros Hg Hu. induction n as [|n IH]; [done|].
  simpl. rewrite invoke_load; simpl.
  rewrite load_handler_body; [done..|]. by apply iter_load_untargeted.
Qed.

Lemma iter_click_body {X} (g : element → X) n p :
  body_untargeted (doc p) →
  g (body (doc (Nat.iter n (invoke ClickHandler click_handler) p))) = g (body (doc p)).
Proof.
  intros Hu. induction n as [|n IH]; [done|].
  simpl. rewrite invoke_click; simpl.
  rewrite click_handler_body; [done|]. by apply iter_click_untargeted.
Qed.

(** With the body not looked up, an event changes of it at most what
    [document.body.style] writes. *)
Lemma step_body_untargeted {X} (g : element → X) ev p :
  keeps g (set_style "display" "block") → keeps g (set_style "opacity" "1") →
  body_untargeted (doc p) →
  g (body (doc (step ev p))) = g (body (doc p)).
Proof.
  intros Hd Ho Hu. destruct ev as [|i|ms|]; simpl.
  - by apply iter_load_body.
  - destruct (tree (doc p) !! i); [|done]. by apply iter_click_body.
  - done.
  - destruct (pop_due _ _); [|done]. rewrite invoke_reveal; simpl.
    by rewrite body_modify, decide_True.
Qed.

Lemma step_display ev p :
  style (body (doc (step ev p))) !! "display" = style (body (doc p)) !! "display" ∨
  style (body (doc (step ev p))) !! "display" = Some "block".
Proof.
  destruct ev as [|i|ms|].
  - simpl. destruct (loadListeners p) as [|n]; [by left|right]. simpl.
    rewrite invoke_load; simpl. apply load_handler_display.
  - left. apply (step_body_field (λ e, style e !! "display")). solve_keeps.
  - by left.
  - left. apply (step_body_field (λ e, style e !! "display")). solve_keeps.
Qed.

Lemma step_opacity ev p :
  opacity (step ev p) = opacity p ∨ opacity (step ev p) = Some "1".
Proof.
  destruct ev as [|i|ms|].
  - left. apply (step_body_field (λ e, style e !! "opacity")), keeps_opacity_load.
  - left. apply (step_body_field (λ e, style e !! "opacity")), keeps_opacity_click.
  - by left.
  - unfold opacity. simpl. destruct (pop_due _ _); [right|by left].
    rewrite invoke_reveal; simpl. rewrite body_modify, decide_True by done.
    simpl. by rewrite lookup_insert_eq.
Qed.
End body_frame.

(** What one event leaves of the body. *)
Lemma step_body_frame (ev : event) (p : page) :
  let q := step ev p in
  el_id (body (doc q)) = el_id (body (doc p)) ∧
  body_index (doc q) = body_index (doc p) ∧
  length (tree (doc q)) = length (tree (doc p)) ∧
  (∀ prop, prop ≠ "display" → prop ≠ "opacity" →
     style (body (doc q)) !! prop = style (body (doc p)) !! prop) ∧
  (ev ≠ Load → style (body (doc q)) !! "display" = style (body (doc p)) !! "display") ∧
  (ev ≠ Timeout → opacity q = opacity p) ∧
  (body_untargeted (doc p) →
     classList (body (doc q)) = classList (body (doc p)) ∧
     clickListeners (body (doc q)) = clickListeners (body (doc p))).
Proof.
  intros q. unfold q. split_and!.
  - apply (step_body_field el_id). destruct ev; solve_keeps.
  - apply step_body_index.
  - rewrite <- !(length_fmap el_id). f_equal.
    apply (step_field el_id). destruct ev; solve_keeps.
  - intros prop Hd Ho. apply (step_body_field (λ e, style e !! prop)).
    destruct ev; solve_keeps.
  - intros Hev. apply (step_body_field (λ e, style e !! "display")).
    destruct ev; [done|solve_keeps..].
  - intros Hev. apply (step_body_field (λ e, style e !! "opacity")).
    destruct ev; [solve_keeps..|done].
  - intros Hu. split.
    + by apply (step_body_untargeted classList).
    + by apply (step_body_untargeted clickListeners).
Qed.

(** C8, as amended: through [document.body] the script writes two style
    properties and nothing else: only a load event changes the body's
    [display], and only to [block]; only a timeout changes its [opacity],
    and only to 1.  No event changes the body's id, any other style
    property, its place in the document or the number of elements; and when
    the body is not itself the element one of the four lookups finds, no
    event changes its class list or its click listeners. *)
Theorem body_frame (p : page) (evs : list event) :
  let q := run evs p in
  el_id (body (doc q)) = el_id (body (doc p)) ∧
  body_index (doc q) = body_index (doc p) ∧
  length (tree (doc q)) = length (tree (doc p)) ∧
  (∀ prop, prop ≠ "display" → prop ≠ "opacity" →
     style (body (doc q)) !! prop = style (body (doc p)) !! prop) ∧
  (style (body (doc q)) !! "display" = style (body (doc p)) !! "display" ∨
   style (body (doc q)) !! "display" = Some "block") ∧
  (Load ∉ evs →
     style (body (doc q)) !! "display" = style (body (doc p)) !! "display") ∧
  (opacity q = opacity p ∨ opacity q = Some "1") ∧
  (Timeout ∉ evs → opacity q = opacity p) ∧
  (body_untargeted (doc p) →
     classList (body (doc q)) = classList (body (doc p)) ∧
     clickListeners (body (doc q)) = clickListeners (body (doc p))).
Proof.
  induction evs as [|ev evs IH] using rev_ind; simpl.
  - split_and!; auto.
  - rewrite run_snoc. set (q := run evs p) in *.
    destruct IH as (I1 & I2 & I3 & I4 & I5 & I6 & I7 & I8 & I9).
    destruct (step_body_frame ev q) as (S1 & S2 & S3 & S4 & S5 & S6 & S9).
    split_and!.
    + congruence.
    + congruence.
    + congruence.
    + intros prop Hd Ho. by rewrite S4, I4.
    + destruct (step_display ev q) as [-> | ->]; [done|by right].
    + intros Hn. rewrite S5, I6; [done| |]; set_solver.
    + destruct (step_opacity ev q) as [-> | ->]; [done|by right].
    + intros Hn. rewrite S6, I8; [done| |]; set_solver.
    + intros Hu. destruct (I9 Hu) as [E1 E2]. rewrite <- E1, <- E2. apply S9.
      clear -Hu. unfold q. induction evs as [|ev' evs IH] using rev_ind; [done|].
      rewrite run_snoc. by apply body_untargeted_step.
Qed.

Lemma body_frame_witness :
  body_untargeted (doc sample_page) ∧
  let q := run [Load; Advance 50; Timeout; Click 6] (script sample_page) in
  classList (body (doc q)) = classList (body (doc (script sample_page))) ∧
  clickListeners (body (doc q)) = clickListeners (body (doc (script sample_page))).
Proof.
  assert (body_untargeted (doc sample_page)) as H by by vm_compute.
  split; [exact H|].
  apply (body_frame (script sample_page) [Load; Advance 50; Timeout; Click 6]).
  exact H.
Defined.

(** C8 as stated fails: when the body itself carries the class
    [container], the load listener adds [blur] to the body's class list. *)
Lemma body_class_changed :
  fresh body_container_page ∧
  present (doc body_container_page) 4 2 3 5 ∧
  let q := run [Load] (script body_container_page) in
  classList (body (doc body_container_page)) = ["container"] ∧
  classList (body (doc q)) = ["container"; "blur"] ∧
  classList (body (doc q)) ≠ classList (body (doc body_container_page)).
Proof.
  split; [|split; [done|]].
  - unfold fresh. split_and!; try done. by repeat constructor.
  - by vm_compute.
Qed.

(** ** A load listener that faulted *)

Section faulted.
Implicit Types (p q : page) (ev : event).

Lemma step_load_faulted p0 :
  fresh p0 → load_absent (doc p0) →
  log (step Load (script p0)) = [Enter LoadHandler; Uncaught TypeError] ∧
  unlistened (doc (step Load (script p0))).
Proof.
  intros (Ht & Hn & Hl & Hz) Habs. simpl. rewrite Hn. simpl.
  rewrite invoke_load. simpl.
  destruct (load_handler_faults (script p0) Habs) as [-> Hk].
  rewrite Hl. split; [done|]. by apply (unlistened_fmap (doc p0)).
Qed.

Lemma run_no_load_listeners evs p :
  Load ∉ evs →
  clickListeners <$> tree (doc (run evs p)) = clickListeners <$> tree (doc p).
Proof.
  revert p. induction evs as [|ev evs IH]; intros p Hevs; [done|].
  rewrite run_cons, IH by set_solver.
  apply step_field. destruct ev; [|solve_keeps..].
  destruct Hevs. by left.
Qed.
End faulted.

(** C9: the load listener registers the click listener in its last
    statement.  When the popup, the [.container] or the overlay is missing,
    the load listener faults before it and no element has a click listener;
    from then on, whatever else happens short of another load event, a click
    on any element, the close control included, leaves the page as it
    is. *)
Theorem faulted_load_registers_nothing (p0 : page) (evs : list event) (i : nat) :
  fresh p0 →
  absent_id "popup" (doc p0) ∨ absent_class "container" (doc p0) ∨
    absent_id "overlay" (doc p0) →
  Load ∉ evs →
  let p1 := step Load (script p0) in
  let q := run evs p1 in
  log p1 = [Enter LoadHandler; Uncaught TypeError] ∧
  unlistened (doc p1) ∧ unlistened (doc q) ∧ step (Click i) q = q.
Proof.
  intros Hf Habs Hevs p1 q.
  assert (load_absent (doc p0)) as Hl by (unfold load_absent; tauto).
  destruct (step_load_faulted p0 Hf Hl) as [Hlog Hz].
  assert (unlistened (doc q)) as Hq.
  { apply (unlistened_fmap (doc p1)); [|done]. by apply run_no_load_listeners. }
  split_and!; try done. by apply unlistened_click.
Qed.

Lemma faulted_load_registers_nothing_witness :
  fresh no_popup_page ∧
  (absent_id "popup" (doc no_popup_page) ∨
   absent_class "container" (doc no_popup_page) ∨
   absent_id "overlay" (doc no_popup_page)) ∧
  (Load ∉ [Advance 60; Timeout]) ∧
  let q := run [Advance 60; Timeout] (step Load (script no_popup_page)) in
  step (Click 5) q = q.
Proof.
  assert (absent_id "popup" (doc no_popup_page) ∨
          absent_class "container" (doc no_popup_page) ∨
          absent_id "overlay" (doc no_popup_page)) as Ha
    by (left; by apply absent_id_lookup).
  assert (Load ∉ [Advance 60; Timeout]) as Hn.
  { intros H. repeat (apply elem_of_cons in H as [H|H]; [discriminate H|]).
    by apply elem_of_nil in H. }
  split; [exact no_popup_fresh|]. split; [exact Ha|]. split; [exact Hn|].
  apply (faulted_load_registers_nothing no_popup_page [Advance 60; Timeout] 5
           no_popup_fresh Ha Hn).
Defined.

(** ** A container that went away *)

(** The sample page after its load event, with the class [container] taken
    off the one element that had it. *)
Definition container_gone_page : page :=
  with_doc (modify (remove_class "container") 3) (run [Load] (script sample_page)).

(** C10: the click listener looks its elements up each time it runs.  When
    the [.container] is not in the document at that time while the popup
    and the overlay are, it removes [show] from the popup and then faults:
    the overlay's class list is as before, so an overlay that was visible
    stays visible next to a popup that is no longer shown. *)
Theorem click_without_container (p : page) (a c : nat) :
  popup_of (doc p) = Some a → container_of (doc p) = None →
  overlay_of (doc p) = Some c →
  ∃ p', click_handler p = (Abrupt TypeError, p') ∧
    doc p' = modify (remove_class "show") a (doc p) ∧
    has (doc p') a "show" = false ∧
    has (doc p') c "hide" = has (doc p) c "hide" ∧
    popup_shown (doc p') = false ∧
    overlay_visible (doc p') = overlay_visible (doc p) ∧
    (overlay_visible (doc p) = true → ¬ in_sync (doc p')).
Proof.
  intros Ha Hb Hc. eexists. split.
  { by rewrite click_handler_eq, Ha, Hb. }
  simpl.
  assert (popup_shown (modify (remove_class "show") a (doc p)) = false) as Hs.
  { unfold popup_shown. rewrite popup_of_modify, Ha by auto with harmless.
    apply has_remove_same. }
  assert (overlay_visible (modify (remove_class "show") a (doc p)) =
          overlay_visible (doc p)) as Hv.
  { unfold overlay_visible. rewrite overlay_of_modify, Hc by auto with harmless.
    by rewrite has_remove_ne. }
  split_and!; try done.
  - apply has_remove_same.
  - by apply has_remove_ne.
  - intros Hvis [E1 E2]. congruence.
Qed.

Lemma click_without_container_witness :
  popup_of (doc container_gone_page) = Some 5 ∧
  container_of (doc container_gone_page) = None ∧
  overlay_of (doc container_gone_page) = Some 4 ∧
  container_of (doc (run [Load] (script sample_page))) = Some 3 ∧
  overlay_visible (doc container_gone_page) = true ∧
  ∃ p', click_handler container_gone_page = (Abrupt TypeError, p') ∧
    popup_shown (doc p') = false ∧ overlay_visible (doc p') = true.
Proof.
  split_and!; try by vm_compute.
  destruct (click_without_container container_gone_page 5 4)
    as (p' & Hr & _ & _ & _ & Hs & Hv & _); try by vm_compute.
  exists p'. split_and!; [exact Hr|exact Hs|].
  rewrite Hv. by vm_compute.
Defined.

(** * Further properties of the script *)

(** ** The lookups never move *)

Section lookups_stable.
Implicit Types (p : page) (n : nat).

Lemma find_first_fields (P : element → bool) d d' :
  P <$> tree d' = P <$> tree d → find_first P (tree d') = find_first P (tree d).
Proof. apply find_first_ext. Qed.

Lemma iter_load_lookups n p :
  let q := Nat.iter n (invoke LoadHandler load_handler) p in
  popup_of (doc q) = popup_of (doc p) ∧ container_of (doc q) = container_of (doc p) ∧
  overlay_of (doc q) = overlay_of (doc p) ∧ close_of (doc q) = close_of (doc p).
Proof.
  unfold popup_of, container_of, overlay_of, close_of.
  split_and!; apply find_first_fields, iter_load_field;
    (eapply Forall_impl; [apply (edits_harmless Load)|]);
    auto using harmless_keeps_id, harmless_keeps_container.
Qed.

Lemma iter_click_lookups n p :
  let q := Nat.iter n (invoke ClickHandler click_handler) p in
  popup_of (doc q) = popup_of (doc p) ∧ container_of (doc q) = container_of (doc p) ∧
  overlay_of (doc q) = overlay_of (doc p) ∧ close_of (doc q) = close_of (doc p).
Proof.
  unfold popup_of, container_of, overlay_of, close_of.
  split_and!; apply find_first_fields, iter_click_field;
    (eapply Forall_impl; [apply (edits_harmless (Click 0))|]);
    auto using harmless_keeps_id, harmless_keeps_container.
Qed.

Lemma iter_load_body_index n p :
  body_index (doc (Nat.iter n (invoke LoadHandler load_handler) p)) =
  body_index (doc p).
Proof.
  induction n as [|n IH]; simpl; [done|].
  rewrite invoke_load; simpl. by rewrite load_handler_body_index.
Qed.

Lemma iter_click_body_index n p :
  body_index (doc (Nat.iter n (invoke ClickHandler click_handler) p)) =
  body_index (doc p).
Proof.
  induction n as [|n IH]; simpl; [done|].
  rewrite invoke_click; simpl. by rewrite click_handler_body_index.
Qed.
End lookups_stable.

(** X1: whatever events are handled, each of the four lookups of the script
    finds the element it found before, or none as before: the script edits
    only the tokens [show], [blur] and [hide], styles and listeners, never an
    id or the class [container]. *)
Theorem lookups_stable (p : page) (evs : list event) :
  popup_of (doc (run evs p)) = popup_of (doc p) ∧
  container_of (doc (run evs p)) = container_of (doc p) ∧
  overlay_of (doc (run evs p)) = overlay_of (doc p) ∧
  close_of (doc (run evs p)) = close_of (doc p).
Proof.
  revert p. induction evs as [|ev evs IH]; intros p; [done|].
  rewrite run_cons.
  destruct (IH (step ev p)) as (-> & -> & -> & ->). apply step_lookups.
Qed.

(** ** Other class tokens *)

(** The class tokens the script uses as marks. *)
Definition marker (tok : string) : Prop :=
  tok = "show" ∨ tok = "blur" ∨ tok = "hide".

#[global] Instance marker_dec tok : Decision (marker tok).
Proof. unfold marker. apply _. Defined.


Section other_tokens.
Implicit Types (tok : string) (l : list string) (e : element).



End other_tokens.


(** ** Elements the script does not look up *)

(** The element at position [i] is neither the body nor found by a lookup. *)
Definition bystander (d : document) (i : nat) : Prop :=
  i ≠ body_index d ∧ popup_of d ≠ Some i ∧ container_of d ≠ Some i ∧
  overlay_of d ≠ Some i ∧ close_of d ≠ Some i.

Section bystanders.
Implicit Types (p : page) (i n : nat).

Lemma tree_modify_ne (f : element → element) i j d :
  j ≠ i → tree (modify f j d) !! i = tree d !! i.
Proof. intros. by rewrite tree_modify, list_lookup_alter_ne. Qed.

Lemma load_handler_bystander p i :
  bystander (doc p) i → tree (doc (load_handler p).2) !! i = tree (doc p) !! i.
Proof.
  intros (Hb & Ha & Hc & Ho & Hk). rewrite load_handler_eq.
  destruct (popup_of (doc p)) as [a|] eqn:Ea,
    (container_of (doc p)) as [b|] eqn:Eb,
    (overlay_of (doc p)) as [c|] eqn:Ec,
    (close_of (doc p)) as [k|] eqn:Ek; simpl; unfold displayed;
    by rewrite !tree_modify_ne by congruence.
Qed.

Lemma click_handler_bystander p i :
  bystander (doc p) i → tree (doc (click_handler p).2) !! i = tree (doc p) !! i.
Proof.
  intros (Hb & Ha & Hc & Ho & Hk). rewrite click_handler_eq.
  destruct (popup_of (doc p)) as [a|] eqn:Ea,
    (container_of (doc p)) as [b|] eqn:Eb,
    (overlay_of (doc p)) as [c|] eqn:Ec; simpl;
    by rewrite ?tree_modify_ne by congruence.
Qed.

Lemma bystander_step ev p i : bystander (doc (step ev p)) i ↔ bystander (doc p) i.
Proof.
  unfold bystander. rewrite step_body_index.
  by destruct (step_lookups ev p) as (-> & -> & -> & ->).
Qed.

Lemma step_bystander ev p i :
  bystander (doc p) i → tree (doc (step ev p)) !! i = tree (doc p) !! i.
Proof.
  intros Hi. destruct ev as [|j|ms|]; simpl.
  - induction (loadListeners p) as [|n IH]; simpl; [done|].
    rewrite invoke_load; simpl. rewrite load_handler_bystander; [done|].
    unfold bystander. rewrite iter_load_body_index.
    by destruct (iter_load_lookups n p) as (-> & -> & -> & ->).
  - destruct (tree (doc p) !! j) as [e|]; [|done].
    induction (clickListeners e) as [|n IH]; simpl; [done|].
    rewrite invoke_click; simpl. rewrite click_handler_bystander; [done|].
    unfold bystander. rewrite iter_click_body_index.
    by destruct (iter_click_lookups n p) as (-> & -> & -> & ->).
  - done.
  - destruct (pop_due _ _); [|done]. rewrite invoke_reveal; simpl.
    apply tree_modify_ne. destruct Hi as [Hi _]. congruence.
Qed.
End bystanders.

(** X3: an element that is not the body and that none of the four lookups
    finds is never touched: after any run of events it is the very element
    it was (id, class list, style and listeners). *)
Theorem bystander_untouched (p : page) (evs : list event) (i : nat) :
  bystander (doc p) i →
  tree (doc (run evs p)) !! i = tree (doc p) !! i.
Proof.
  revert p. induction evs as [|ev evs IH]; intros p Hi; [done|].
  rewrite run_cons, IH by by apply bystander_step.
  by apply step_bystander.
Qed.

Lemma bystander_untouched_witness :
  bystander (doc (script sample_page)) 1 ∧
  tree (doc (run [Load; Advance 50; Timeout; Click 6] (script sample_page))) !! 1 =
    tree (doc (script sample_page)) !! 1.
Proof.
  assert (bystander (doc (script sample_page)) 1) as H by by vm_compute.
  split; [exact H|].
  exact (bystander_untouched (script sample_page)
           [Load; Advance 50; Timeout; Click 6] 1 H).
Defined.

(** ** No exception on a complete page *)

Section faultless.
Implicit Types (p : page) (n : nat).

Lemma load_handler_normal p a b c k :
  present (doc p) a b c k → (load_handler p).1 = Normal tt.
Proof. intros Hp. by rewrite (load_handler_present p a b c k Hp). Qed.

Lemma click_handler_normal p a b c k :
  present (doc p) a b c k → (click_handler p).1 = Normal tt.
Proof. intros Hp. by rewrite (click_handler_present p a b c k Hp). Qed.

Lemma iter_click_present_doc n p a b c k :
  present (doc (Nat.iter n (invoke ClickHandler click_handler) p)) a b c k ↔
  present (doc p) a b c k.
Proof.
  unfold present.
  by destruct (iter_click_lookups n p) as (-> & -> & -> & ->).
Qed.

Lemma iter_load_log n p a b c k :
  present (doc p) a b c k →
  log (Nat.iter n (invoke LoadHandler load_handler) p) =
    log p ++ replicate n (Enter LoadHandler).
Proof.
  intros Hp. induction n as [|n IH]; simpl; [by rewrite app_nil_r|].
  rewrite invoke_load; simpl.
  rewrite (load_handler_normal _ a b c k) by by apply iter_load_present.
  rewrite IH; simpl. rewrite <- (assoc_L (++)). f_equal.
  change (Enter LoadHandler :: replicate n (Enter LoadHandler))
    with (replicate (S n) (Enter LoadHandler)).
  by rewrite replicate_S_end.
Qed.

Lemma iter_click_log n p a b c k :
  present (doc p) a b c k →
  log (Nat.iter n (invoke ClickHandler click_handler) p) =
    log p ++ replicate n (Enter ClickHandler).
Proof.
  intros Hp. induction n as [|n IH]; simpl; [by rewrite app_nil_r|].
  rewrite invoke_click; simpl.
  rewrite (click_handler_normal _ a b c k) by by apply iter_click_present_doc.
  rewrite IH; simpl. rewrite <- (assoc_L (++)). f_equal.
  change (Enter ClickHandler :: replicate n (Enter ClickHandler))
    with (replicate (S n) (Enter ClickHandler)).
  by rewrite replicate_S_end.
Qed.

Lemma step_log_present ev p a b c k e :
  present (doc p) a b c k →
  Uncaught e ∈ log (step ev p) → Uncaught e ∈ log p.
Proof.
  intros Hp. destruct ev as [|i|ms|]; simpl.
  - rewrite (iter_load_log _ p a b c k Hp).
    intros [H|H%elem_of_replicate]%elem_of_app; [done|]. by destruct H.
  - destruct (tree (doc p) !! i) as [x|]; [|done].
    rewrite (iter_click_log _ p a b c k Hp).
    intros [H|H%elem_of_replicate]%elem_of_app; [done|]. by destruct H.
  - done.
  - destruct (pop_due _ _); [|done]. rewrite invoke_reveal; simpl.
    intros [H|H]%elem_of_app; [done|].
    apply elem_of_cons in H as [H|H]; [done|]. by apply elem_of_nil in H.
Qed.
End faultless.

(** X4: on a page that has the four elements no handler ever throws: no
    run of events adds an uncaught exception to the log. *)
Theorem complete_page_never_faults (p : page) (a b c k : nat)
    (evs : list event) (e : exn) :
  present (doc p) a b c k →
  Uncaught e ∈ log (run evs p) → Uncaught e ∈ log p.
Proof.
  revert p. induction evs as [|ev evs IH]; intros p Hp; [done|].
  rewrite run_cons. intros H.
  apply (step_log_present ev p a b c k e Hp).
  apply IH; [|done]. by apply step_present.
Qed.

Lemma complete_page_never_faults_witness :
  present (doc (script sample_page)) 5 3 4 6 ∧
  (Uncaught TypeError ∈
     log (run [Load; Click 6; Advance 70; Timeout; Click 6] (script sample_page)) →
   Uncaught TypeError ∈ log (script sample_page)).
Proof.
  assert (present (doc (script sample_page)) 5 3 4 6) as H by by vm_compute.
  split; [exact H|].
  exact (complete_page_never_faults (script sample_page) 5 3 4 6
           [Load; Click 6; Advance 70; Timeout; Click 6] TypeError H).
Defined.

(** ** Timeouts are neither lost nor repeated *)

(** How many times the load listener has been run. *)
Definition loads (l : list entry) : nat :=
  length (filter (λ x, x = Enter LoadHandler) l).

Section conservation.
Implicit Types (p : page) (n : nat) (l : list entry).

Lemma loads_app l l' : loads (l ++ l') = loads l + loads l'.
Proof. unfold loads. by rewrite filter_app, length_app. Qed.

Lemma pop_due_length now ts ts' :
  pop_due now ts = Some ts' → length ts = S (length ts').
Proof.
  revert ts'. induction ts as [|t ts IH]; intros ts' H; simplify_eq/=.
  case_decide; simplify_eq/=; [done|].
  destruct (pop_due now ts) as [r|]; simplify_eq/=. by rewrite (IH r).
Qed.

Lemma report_counts (r : completion unit) :
  loads (report r) = 0 ∧ reveals (report r) = 0.
Proof. by destruct r. Qed.

Lemma step_conservation ev p :
  length (timers (step ev p)) + reveals (log (step ev p)) + loads (log p) =
  length (timers p) + reveals (log p) + loads (log (step ev p)).
Proof.
  destruct ev as [|i|ms|]; simpl.
  - induction (loadListeners p) as [|n IH]; simpl; [lia|].
    rewrite invoke_load; simpl.
    rewrite length_app, reveals_app, loads_app. simpl.
    change (Enter LoadHandler :: report ?r) with ([Enter LoadHandler] ++ report r).
    rewrite reveals_app, loads_app.
    destruct (report_counts (load_handler
      (Nat.iter n (invoke LoadHandler load_handler) p)).1) as [-> ->].
    change (reveals [Enter LoadHandler]) with 0.
    change (loads [Enter LoadHandler]) with 1.
    destruct (iter_load_rest n p) as (_ & Ht & _). simpl in Ht.
    lia.
  - destruct (tree (doc p) !! i) as [e|]; [|lia].
    induction (clickListeners e) as [|n IH]; simpl; [lia|].
    rewrite invoke_click; simpl.
    change (Enter ClickHandler :: report ?r) with ([Enter ClickHandler] ++ report r).
    rewrite !reveals_app, !loads_app.
    destruct (report_counts (click_handler
      (Nat.iter n (invoke ClickHandler click_handler) p)).1) as [-> ->].
    change (reveals [Enter ClickHandler]) with 0.
    change (loads [Enter ClickHandler]) with 0.
    lia.
  - lia.
  - destruct (pop_due _ _) as [ts|] eqn:E; [|lia].
    rewrite invoke_reveal; simpl. rewrite reveals_app, loads_app.
    apply pop_due_length in E.
    change (reveals [Enter RevealCallback]) with 1.
    change (loads [Enter RevealCallback]) with 0. lia.
Qed.
End conservation.

(** X5: every run of the load listener queues one timeout, and a timeout
    leaves the queue only by running, once.  So after any run of events the
    timeouts still queued plus the runs of the reveal callback have grown by
    exactly the number of runs of the load listener. *)
Theorem timeouts_conserved (p : page) (evs : list event) :
  length (timers (run evs p)) + reveals (log (run evs p)) + loads (log p) =
  length (timers p) + reveals (log p) + loads (log (run evs p)).
Proof.
  revert p. induction evs as [|ev evs IH]; intros p; [done|].
  rewrite run_cons. pose proof (IH (step ev p)). pose proof (step_conservation ev p).
  lia.
Qed.

(** ** Where click listeners are registered *)

(** How many load events a run of events holds. *)
Definition load_events (evs : list event) : nat :=
  length (filter (λ ev, ev = Load) evs).

Section registration.
Implicit Types (p : page) (d : document) (i j k n : nat).

Lemma listeners_modify_keep (f : element → element) j d i :
  keeps clickListeners f → listeners (modify f j d) i = listeners d i.
Proof.
  intros Hf. rewrite !listeners_fmap. by rewrite fmap_tree_modify.
Qed.

Lemma listeners_opened a b c k d i :
  is_Some (tree d !! k) →
  listeners (opened a b c k d) i =
    listeners d i + (if decide (i = k) then 1 else 0).
Proof.
  intros Hk. unfold opened, displayed. case_decide as Hi.
  - subst i. rewrite listeners_add_listener
      by by rewrite !tree_lookup_modify_is_Some.
    rewrite !listeners_modify_keep by done. lia.
  - unfold listeners at 1. rewrite tree_modify_ne by done.
    fold (listeners (modify (remove_class "hide") c
      (modify (add_class "blur") b (modify (add_class "show") a
        (modify (set_style "display" "block") (body_index d) d)))) i).
    rewrite !listeners_modify_keep by done. lia.
Qed.

Lemma iter_load_listeners n p a b c k i :
  present (doc p) a b c k →
  listeners (doc (Nat.iter n (invoke LoadHandler load_handler) p)) i =
    listeners (doc p) i + (if decide (i = k) then n else 0).
Proof.
  intros Hp. induction n as [|n IH]; simpl; [case_decide; lia|].
  rewrite invoke_load; simpl.
  set (q := Nat.iter n (invoke LoadHandler load_handler) p) in *.
  assert (present (doc q) a b c k) as Hq by by apply iter_load_present.
  rewrite (load_handler_present q a b c k Hq); simpl.
  rewrite listeners_opened, IH
    by by apply present_is_Some in Hq as (_ & _ & _ & ?).
  case_decide; lia.
Qed.

Lemma step_listeners ev p a b c k i :
  present (doc p) a b c k →
  listeners (doc (step ev p)) i =
    listeners (doc p) i +
    (if decide (i = k) then loadListeners p * load_events [ev] else 0).
Proof.
  intros Hp. destruct ev as [|j|ms|].
  - simpl. rewrite (iter_load_listeners _ p a b c k) by done.
    change (load_events [Load]) with 1. case_decide; lia.
  - rewrite !listeners_fmap, (step_field clickListeners (Click j)) by solve_keeps.
    change (load_events [Click j]) with 0. case_decide; lia.
  - simpl. change (load_events [Advance ms]) with 0. case_decide; lia.
  - rewrite !listeners_fmap, (step_field clickListeners Timeout) by solve_keeps.
    change (load_events [Timeout]) with 0. case_decide; lia.
Qed.
End registration.

(** X6: on a page that has the four elements, click listeners are
    registered on the close control and nowhere else, one for each run of
    the load listener: after a run of events the close control has gained
    (load listeners on the window) times (load events handled) click
    listeners, and every other element has the click listeners it had. *)
Theorem listeners_registered (p : page) (a b c k : nat) (evs : list event) (i : nat) :
  present (doc p) a b c k →
  listeners (doc (run evs p)) i =
    listeners (doc p) i +
    (if decide (i = k) then loadListeners p * load_events evs else 0).
Proof.
  revert p. induction evs as [|ev evs IH]; intros p Hp.
  - simpl. change (load_events []) with 0. case_decide; lia.
  - rewrite run_cons, IH by by apply step_present.
    rewrite (step_listeners ev p a b c k) by done.
    rewrite step_loadListeners.
    change (ev :: evs) with ([ev] ++ evs).
    unfold load_events. rewrite (filter_app _ [ev] evs), length_app.
    case_decide; lia.
Qed.

Lemma listeners_registered_witness :
  present (doc (script sample_page)) 5 3 4 6 ∧
  listeners (doc (run [Load; Click 6; Load] (script sample_page))) 6 =
    listeners (doc (script sample_page)) 6 +
    (if decide (6 = 6)
     then loadListeners (script sample_page) * load_events [Load; Click 6; Load]
     else 0).
Proof.
  assert (present (doc (script sample_page)) 5 3 4 6) as H by by vm_compute.
  split; [exact H|].
  exact (listeners_registered (script sample_page) 5 3 4 6 [Load; Click 6; Load] 6 H).
Defined.

(** ** Class lists stay sets *)

(** No class token occurs twice on any element. *)
Definition tidy (d : document) : Prop :=
  Forall (λ e, NoDup (classList e)) (tree d).

Section tidy.
Implicit Types (p : page) (d : document) (tok : string) (l : list string).

Lemma NoDup_token_add tok l : NoDup l → NoDup (token_add tok l).
Proof.
  intros Hl. unfold token_add, contains.
  case_bool_decide as Hin; [done|].
  apply NoDup_app. split_and!; [done| |apply NoDup_singleton].
  intros x Hx ->%list_elem_of_singleton. done.
Qed.

Lemma NoDup_token_remove tok l : NoDup l → NoDup (token_remove tok l).
Proof. apply NoDup_filter. Qed.

Lemma tidy_modify (f : element → element) i d :
  (∀ e, NoDup (classList e) → NoDup (classList (f e))) →
  tidy d → tidy (modify f i d).
Proof.
  intros Hf Hd. unfold tidy. rewrite tree_modify.
  apply Forall_alter; [done|]. intros e _. apply Hf.
Qed.

Lemma tidy_edits ev :
  Forall (λ f, ∀ e, NoDup (classList e) → NoDup (classList (f e))) (edits_of ev).
Proof.
  destruct ev; simpl;
    repeat (apply Forall_cons_2;
      [intros e; simpl;
       first [done|apply NoDup_token_add|apply NoDup_token_remove]|]);
    apply Forall_nil_2.
Qed.

Lemma load_handler_tidy p : tidy (doc p) → tidy (doc (load_handler p).2).
Proof.
  pose proof (tidy_edits Load) as
    (? & (? & (? & (? & (? & _)%Forall_cons)%Forall_cons)%Forall_cons)
      %Forall_cons)%Forall_cons.
  intros Hd. rewrite load_handler_eq. unfold displayed.
  repeat case_match; simpl; repeat (apply tidy_modify; [done|]); done.
Qed.

Lemma click_handler_tidy p : tidy (doc p) → tidy (doc (click_handler p).2).
Proof.
  pose proof (tidy_edits (Click 0)) as
    (? & (? & (? & _)%Forall_cons)%Forall_cons)%Forall_cons.
  intros Hd. rewrite click_handler_eq.
  repeat case_match; simpl; repeat (apply tidy_modify; [done|]); done.
Qed.

Lemma step_tidy ev p : tidy (doc p) → tidy (doc (step ev p)).
Proof.
  intros Hd. destruct ev as [|i|ms|]; simpl.
  - induction (loadListeners p) as [|n IH]; simpl; [done|].
    rewrite invoke_load; simpl. by apply load_handler_tidy.
  - destruct (tree (doc p) !! i) as [e|]; [|done].
    induction (clickListeners e) as [|n IH]; simpl; [done|].
    rewrite invoke_click; simpl. by apply click_handler_tidy.
  - done.
  - destruct (pop_due _ _); [|done]. rewrite invoke_reveal; simpl.
    by apply tidy_modify.
Qed.
End tidy.

(** X7: [classList.add] and [classList.remove] keep class lists free of
    repeated tokens: if no element carries a class token twice, none does
    after any run of events. *)
Theorem class_lists_stay_sets (p : page) (evs : list event) :
  tidy (doc p) → tidy (doc (run evs p)).
Proof.
  revert p. induction evs as [|ev evs IH]; intros p Hd; [done|].
  rewrite run_cons. by apply IH, step_tidy.
Qed.

Lemma class_lists_stay_sets_witness :
  tidy (doc (script sample_page)) ∧
  tidy (doc (run [Load; Click 6; Load] (script sample_page))).
Proof.
  assert (tidy (doc (script sample_page))) as H.
  { unfold tidy. simpl. repeat constructor; set_solver. }
  split; [exact H|].
  exact (class_lists_stay_sets (script sample_page) [Load; Click 6; Load] H).
Defined.

(** ** Opening, then closing *)

Section round_trip.
Implicit Types (p : page) (d : document) (t u : string) (l : list string).

Lemma contains_add u t l :
  contains u (token_add t l) = bool_decide (u = t) || contains u l.
Proof.
  case_bool_decide as H; simpl.
  - subst u. apply contains_add_eq.
  - apply contains_add_ne. congruence.
Qed.

Lemma contains_remove u t l :
  contains u (token_remove t l) = negb (bool_decide (u = t)) && contains u l.
Proof.
  case_bool_decide as H; simpl.
  - subst u. apply contains_remove_eq.
  - apply contains_remove_ne. congruence.
Qed.

Lemma tree_modify_lookup (f : element → element) j d i :
  tree (modify f j d) !! i = (if decide (j = i) then f else id) <$> tree d !! i.
Proof.
  rewrite tree_modify, list_lookup_alter.
  case_decide; [by subst|]. by destruct (tree d !! i).
Qed.

(** Closing an opened document gives every element the class tokens it had
    when the document was closed to begin with. *)
Lemma has_closed_opened a b c k d i tok :
  closed_state d a b c →
  has (closed a b c (opened a b c k d)) i tok = has d i tok.
Proof.
  unfold closed_state, closed, opened, displayed, has.
  intros (Ha & Hb & Hc). rewrite !tree_modify_lookup.
  destruct (tree d !! i) as [e|] eqn:E; simpl; [|done].
  repeat case_decide; subst; simpl;
    rewrite ?E in *; simpl in *;
    repeat (rewrite contains_add || rewrite contains_remove);
    repeat case_bool_decide; subst; simpl;
    rewrite ?Ha, ?Hb, ?Hc; simpl; try done;
    by destruct (contains tok (classList e)).
Qed.
End round_trip.

(** X8: on a page that has the four elements and starts closed (no [show]
    on the popup, no [blur] on the container, [hide] on the overlay), the
    load event followed by a click on the close control gives every element
    back the class tokens it had: a token is on an element afterwards
    exactly when it was before. *)
Theorem open_close_round_trip (p : page) (a b c k i : nat) (tok : string) :
  loadListeners p = 0 →
  present (doc p) a b c k → closed_state (doc p) a b c →
  has (doc (run [Load; Click k] (script p))) i tok = has (doc p) i tok.
Proof.
  intros Hn Hp Hcl.
  change (run [Load; Click k] (script p))
    with (step (Click k) (step Load (script p))).
  assert (doc (step Load (script p)) = opened a b c k (doc p)) as Hd.
  { simpl. rewrite Hn. simpl. rewrite invoke_load; simpl.
    by rewrite (load_handler_present (script p) a b c k Hp). }
  assert (present (doc (step Load (script p))) a b c k) as Hp1
    by by apply step_present.
  assert (0 < listeners (doc (step Load (script p))) k) as Hk
    by (apply step_load_listeners with a b c; [done|simpl; lia]).
  generalize dependent (step Load (script p)). intros p1 Hd Hp1 Hk.
  unfold listeners in Hk. unfold step.
  destruct (tree (doc p1) !! k) as [e|]; [|lia].
  destruct (clickListeners e) as [|n]; [lia|].
  destruct (iter_click_present n p1 a b c k Hp1) as [Hd2 _].
  cbv zeta in Hd2. rewrite Hd2, Hd. by apply has_closed_opened.
Qed.

Lemma open_close_round_trip_witness :
  loadListeners sample_page = 0 ∧ present (doc sample_page) 5 3 4 6 ∧
  closed_state (doc sample_page) 5 3 4 ∧
  has (doc (run [Load; Click 6] (script sample_page))) 4 "hide" =
    has (doc sample_page) 4 "hide".
Proof.
  assert (present (doc sample_page) 5 3 4 6) as Hp by by vm_compute.
  assert (closed_state (doc sample_page) 5 3 4) as Hc by by vm_compute.
  split; [done|]. split; [exact Hp|]. split; [exact Hc|].
  exact (open_close_round_trip sample_page 5 3 4 6 4 "hide" eq_refl Hp Hc).
Defined.
